(** * PyGPSClient socket handler: the incremental UBX / NMEA / RTCM3 framer

    A shallow embedding of [pygpsclient/socket_handler.py]: the buffer reader
    [_read_bytes], the three protocol slicers [parse_ubx], [parse_nmea] and
    [parse_rtcm], the scanner [parse_buffer] and the receive loop of
    [_read_thread], followed by the properties of the framer.

    Conventions.
    - A [bytes] / [bytearray] value is a [list byte]; the value of a byte as a
      Python [int] is [byte_val : byte -> Z].
    - Positions and counts ([start], [num], [i]) are never negative in the
      source and are natural numbers here; a Python slice [b[i:j]] with
      [0 <= i] is [slice b i j].
    - A Python call either returns or raises: [result A].  [EOFError] is what
      [_read_bytes] raises; the decoders of pyubx2, pynmeagps and pyrtcm are
      external and may raise anything.
    - The message queue and the Tk events generated by the handler are the
      state [app], threaded explicitly. *)

From Stdlib Require Import ZArith Lia.
From Stdlib.Strings Require Import Byte.
From Stdlib Require String.
Import String.StringSyntax.
Delimit Scope string_scope with string.
From stdpp Require Import base list.
From Equations Require Import Equations.

Set Default Proof Using "Type".
Set Warnings "-clear-no-such-hyp".

(** ** Bytes *)

Abbreviation bytes := (list byte).

#[global] Instance byte_eq_dec : EqDecision byte := Byte.byte_eq_dec.

(** The integer a byte denotes, [b[0]] in Python for a one-byte [b]. *)
Definition byte_val (b : byte) : Z := Z.of_N (Byte.to_N b).

(** Python [b[i:j]] for [0 <= i]: out-of-range bounds are clamped. *)
Definition slice (b : bytes) (i j : nat) : bytes := take (j - i) (drop i b).

(** Python [b[-2:]]: the last two bytes, or all of [b] when it is shorter. *)
Definition last_two (b : bytes) : bytes := drop (length b - 2) b.

(** [int.from_bytes(b, "little", signed=False)]. *)
Definition int_from_bytes_little (b : bytes) : Z :=
  foldr (fun x acc => byte_val x + 256 * acc)%Z 0%Z b.

(** ** Exceptions and results *)

Inductive exn : Set :=
| EOFError
| IndexError
| TimeoutError
| OSError
| AttributeError
| UBXParseError
| NMEAParseError
| RTCMParseError
| OtherException.

#[global] Instance exn_eq_dec : EqDecision exn.
Proof. solve_decision. Defined.

Inductive result (A : Type) : Type :=
| Ok (a : A)
| Raise (e : exn).
Arguments Ok {A} a.
Arguments Raise {A} e.

#[global] Instance result_ret : MRet result := fun _ a => Ok a.
#[global] Instance result_bind : MBind result := fun _ _ f m =>
  match m with
  | Ok a => f a
  | Raise e => Raise e
  end.

(** Python [b[i]] on a bytes object: the integer at [i], [IndexError] out of
    range. *)
Definition index (b : bytes) (i : nat) : result Z :=
  match b !! i with
  | Some x => Ok (byte_val x)
  | None => Raise IndexError
  end.

(** ** Constants of the protocol libraries *)

(** Modelled from the spec: [pyubx2.ubxtypes_core.UBX_HDR] is not part of the
    sources at hand; the binary protocol A frame of the spec's concrete
    scenario opens with 0xB5 0x62, and [parse_buffer] itself only looks for a
    second byte after 0x24, 0xB5 or 0xD3. *)
Definition UBX_HDR : bytes := [xb5; x62].

(** The terminator [parse_nmea] scans for, [b"\x0d\x0a"]. *)
Definition CRLF : bytes := [x0d; x0a].

(** The first bytes [parse_buffer] stops at (line 258). *)
Definition SYNC1 : list bytes := [[x24]; [xb5]; [xd3]].

(** ** Application state touched by the handler *)

Inductive event : Set :=
| socket_read             (* event_generate("<<socket_read>>") *)
| socket_eof              (* event_generate("<<socket_eof>>") *)
| status_error (e : exn). (* set_status(f"Error in socket {err}", "red") *)

Record app (parsed : Type) : Type := App {
  _msgqueue : list (bytes * parsed);
  events : list event
}.
Arguments App {parsed} _ _.
Arguments _msgqueue {parsed} _.
Arguments events {parsed} _.

(** [self._msgqueue.put(item)] followed by the read notification
    (lines 275-276). *)
Definition put {parsed} (st : app parsed) (item : bytes * parsed) : app parsed :=
  App (_msgqueue st ++ [item]) (events st ++ [socket_read]).

Definition notify {parsed} (st : app parsed) (ev : event) : app parsed :=
  App (_msgqueue st) (events st ++ [ev]).

(** What one pass through the [try] block of [parse_buffer] ends in. *)
Inductive step (parsed : Type) : Type :=
| Advance1                                     (* start += 1; continue *)
| Advance2                                     (* start += 2; continue *)
| Extracted (raw_data : bytes) (parsed_data : parsed).
Arguments Advance1 {parsed}.
Arguments Advance2 {parsed}.
Arguments Extracted {parsed} _ _.

Definition inspect {A} (a : A) : {b : A | a = b} := exist _ a eq_refl.

(** [_read_bytes] (lines 330-344). *)
Definition _read_bytes (buf : bytes) (start num : nat) : result bytes :=
  if bool_decide (length buf < start + num) then Raise EOFError
  else Ok (slice buf start (start + num)).

Lemma _read_bytes_Ok buf start num b :
  _read_bytes buf start num = Ok b ->
  start + num <= length buf /\ b = take num (drop start buf) /\ length b = num.
Proof.
  unfold _read_bytes, slice. case_bool_decide; [discriminate|].
  intros [= <-]. replace (start + num - start) with num by lia.
  rewrite length_take, length_drop. split_and!; [lia|done|lia].
Qed.

Section Framer.

Context {parsed : Type}.

(** [pyubx2.ubxtypes_core.NMEA_HDR], the list of two-byte NMEA headers, and
    the three external decoders. *)
Variable NMEA_HDR : list bytes.
Variable UBXReader_parse : bytes -> result parsed.
Variable NMEAReader_parse : bytes -> result parsed.
Variable RTCMReader_parse : bytes -> result parsed.

(** [parse_ubx] (lines 286-297). *)
Definition parse_ubx (buf : bytes) (start : nat) (hdr : bytes)
  : result (bytes * parsed) :=
  byten ← _read_bytes buf (start + 2) 4;
  let lenb := int_from_bytes_little (slice byten 2 4) in
  more ← _read_bytes buf (start + 6) (Z.to_nat (lenb + 2));
  let byten := byten ++ more in
  let raw_data := hdr ++ byten in
  parsed_data ← UBXReader_parse raw_data;
  mret (raw_data, parsed_data).

(** [parse_nmea] (lines 299-314): the [while True] loop over [i]. *)
Equations? parse_nmea_loop (buf : bytes) (start : nat) (hdr : bytes) (i : nat)
  : result (bytes * parsed) by wf (S (length buf) - (start + 2 + i)) lt :=
  parse_nmea_loop buf start hdr i with inspect (_read_bytes buf (start + 2) i) := {
    | exist _ (Raise e) _ => Raise e
    | exist _ (Ok byten) Hrd =>
        if bool_decide (last_two byten = CRLF) then
          let raw_data := hdr ++ byten in
          parsed_data ← NMEAReader_parse raw_data;
          mret (raw_data, parsed_data)
        else parse_nmea_loop buf start hdr (i + 1) }.
Proof. apply _read_bytes_Ok in Hrd. lia. Qed.

Definition parse_nmea (buf : bytes) (start : nat) (hdr : bytes)
  : result (bytes * parsed) :=
  parse_nmea_loop buf start hdr 1.

(** [parse_rtcm] (lines 316-327). *)
Definition parse_rtcm (buf : bytes) (start : nat) (hdr : bytes)
  : result (bytes * parsed) :=
  hdr3 ← _read_bytes buf (start + 2) 1;
  lo ← index hdr3 0;
  hi ← index hdr 1;
  let lenb := Z.lor lo (Z.shiftl hi 8) in
  byten ← _read_bytes buf (start + 3) (Z.to_nat (lenb + 3));
  let raw_data := hdr ++ hdr3 ++ byten in
  parsed_data ← RTCMReader_parse raw_data;
  mret (raw_data, parsed_data).

Definition extracted (r : result (bytes * parsed)) : result (step parsed) :=
  '(raw_data, parsed_data) ← r; mret (Extracted raw_data parsed_data).

(** The body of the [try] block of [parse_buffer] (lines 256-271) at cursor
    [start]. *)
Definition try_body (buf : bytes) (start : nat) : result (step parsed) :=
  byte1 ← _read_bytes buf start 1;
  if bool_decide (byte1 ∉ SYNC1) then mret Advance1
  else
    byte2 ← _read_bytes buf (start + 1) 1;
    let bytehdr := byte1 ++ byte2 in
    if bool_decide (bytehdr = UBX_HDR) then
      extracted (parse_ubx buf start bytehdr)
    else if bool_decide (bytehdr ∈ NMEA_HDR) then
      extracted (parse_nmea buf start bytehdr)
    else if bool_decide (byte1 = [xd3]) then
      b2 ← index byte2 0;
      if bool_decide (Z.land b2 (Z.lnot 3) = 0%Z) then
        extracted (parse_rtcm buf start bytehdr)
      else mret Advance2
    else mret Advance2.

(** The [while start < len(buf)] loop of [parse_buffer] (lines 252-282):
    [EOFError] leaves the loop with nothing extracted, any other exception
    is not handled here. *)
Equations? parse_buffer_loop (st : app parsed) (buf : bytes) (start : nat)
  : app parsed * result (option bytes * bytes)
  by wf (length buf - start) lt :=
  parse_buffer_loop st buf start with decide (start < length buf) := {
    | right _ => (st, Ok (None, buf))
    | left Hlt with try_body buf start := {
        | Ok Advance1 => parse_buffer_loop st buf (start + 1)
        | Ok Advance2 => parse_buffer_loop st buf (start + 2)
        | Ok (Extracted raw_data parsed_data) =>
            (put st (raw_data, parsed_data),
             Ok (Some raw_data, drop (start + length raw_data) buf))
        | Raise EOFError => (st, Ok (None, buf))
        | Raise e => (st, Raise e) } }.
Proof. all: lia. Qed.

(** [parse_buffer] (lines 238-284): returns [(raw_data, buf_remain)]. *)
Definition parse_buffer (st : app parsed) (buf : bytes)
  : app parsed * result (option bytes * bytes) :=
  parse_buffer_loop st buf 0.


(** ** Frames, as the framer sees them *)

Inductive protocol : Set := UBX | NMEA | RTCM3.

(** The decoder [parse_buffer] hands a frame of each protocol to. *)
Definition decode (p : protocol) : bytes -> result parsed :=
  match p with
  | UBX => UBXReader_parse
  | NMEA => NMEAReader_parse
  | RTCM3 => RTCMReader_parse
  end.

(** The [if] / [elif] chain of lines 263-271 read as a function of the two
    header bytes: which protocol, if any, a header is dispatched to. *)
Definition classify (b1 b2 : byte) : option protocol :=
  if bool_decide ([b1; b2] = UBX_HDR) then Some UBX
  else if bool_decide ([b1; b2] ∈ NMEA_HDR) then Some NMEA
  else if bool_decide (b1 = xd3 ∧ Z.land (byte_val b2) (Z.lnot 3) = 0%Z)
       then Some RTCM3
  else None.

(** The payload length a UBX frame declares: bytes 4 and 5 of the frame,
    little-endian. *)
Definition ubx_len (f : bytes) : Z := int_from_bytes_little (slice f 4 6).

(** The payload length an RTCM3 frame declares: byte 2 of the frame or-ed
    with byte 1 shifted left by eight. *)
Definition rtcm_len (b2 b3 : byte) : Z :=
  Z.lor (byte_val b3) (Z.shiftl (byte_val b2) 8).

(** The first [k] bytes of [body] end in CR LF. *)
Definition ends_crlf (body : bytes) (k : nat) : Prop :=
  last_two (take k body) = CRLF.

(** [k] is the least count of bytes of [body] ending in CR LF. *)
Definition first_crlf (body : bytes) (k : nat) : Prop :=
  k <= length body /\ ends_crlf body k /\ forall j, j < k -> ~ ends_crlf body j.

(** A byte that is not a first sync byte. *)
Definition nonsync (b : byte) : Prop := [b] ∉ SYNC1.

(** [f] opens with a two-byte header that [parse_buffer] dispatches to [p]. *)
Definition recognised (p : protocol) (f : bytes) : Prop :=
  exists b1 b2, take 2 f = [b1; b2] /\ ~ nonsync b1 /\ classify b1 b2 = Some p.

(** The length rule of each protocol. *)
Definition layout (p : protocol) (f : bytes) : Prop :=
  match p with
  | UBX => length f = 2 + 4 + Z.to_nat (ubx_len f) + 2
  | NMEA => first_crlf (drop 2 f) (length f - 2)
  | RTCM3 =>
      exists b2 b3, f !! 1 = Some b2 /\ f !! 2 = Some b3 /\
                    length f = 2 + 1 + Z.to_nat (rtcm_len b2 b3) + 3
  end.

(** A complete frame of protocol [p]: a recognised header and exactly the
    bytes its length rule asks for. *)
Definition frame (p : protocol) (f : bytes) : Prop :=
  recognised p f /\ layout p f.

(** The slicer [parse_buffer] calls for each protocol. *)
Definition slicer (p : protocol) : bytes -> nat -> bytes -> result (bytes * parsed) :=
  match p with
  | UBX => parse_ubx
  | NMEA => parse_nmea
  | RTCM3 => parse_rtcm
  end.

(** What a slicer returns once it has cut [raw] out of the buffer. *)
Definition deliver (p : protocol) (raw : bytes) : result (bytes * parsed) :=
  parsed_data ← decode p raw; mret (raw, parsed_data).

(** The scan cursor moves from [s] to [e] over noise: one byte when the byte
    under the cursor is not a first sync byte, two when it is and the header
    is dispatched nowhere. *)
Inductive noise_run (buf : bytes) : nat -> nat -> Prop :=
| noise_stop s : noise_run buf s s
| noise_one s e b :
    buf !! s = Some b -> nonsync b ->
    noise_run buf (s + 1) e -> noise_run buf s e
| noise_two s e b1 b2 :
    buf !! s = Some b1 -> buf !! (s + 1) = Some b2 ->
    ~ nonsync b1 -> classify b1 b2 = None ->
    noise_run buf (s + 2) e -> noise_run buf s e.

(** The cursor is stuck at [e]: the buffer is exhausted, or the second
    header byte is missing, or the header is recognised and the bytes after
    the cursor do not yet hold a whole frame. *)
Inductive stalls (buf : bytes) (e : nat) : Prop :=
| stall_end : length buf <= e -> stalls buf e
| stall_header b1 :
    buf !! e = Some b1 -> ~ nonsync b1 -> buf !! (e + 1) = None ->
    stalls buf e
| stall_frame b1 b2 p :
    buf !! e = Some b1 -> buf !! (e + 1) = Some b2 ->
    ~ nonsync b1 -> classify b1 b2 = Some p ->
    (forall raw rest, drop e buf = raw ++ rest -> ~ frame p raw) ->
    stalls buf e.

(** Scanning [buf] from cursor [s] finds no complete frame. *)
Definition waits (buf : bytes) (s : nat) : Prop :=
  exists e, noise_run buf s e /\ stalls buf e.

(** Scanning [buf] from cursor [s] reaches, over noise, the frame [raw] of
    protocol [p] at [start], with [rest] after it. *)
Definition finds (buf : bytes) (s start : nat) (p : protocol) (raw rest : bytes)
  : Prop :=
  noise_run buf s start /\ drop start buf = raw ++ rest /\ frame p raw.

(** What [parse_buffer] does with a frame it has found: enqueue and advance
    when the decoder returns, wait when the decoder raises [EOFError], let
    any other exception through. *)
Definition outcome_of (st : app parsed) (buf : bytes) (p : protocol)
    (raw rest : bytes) : app parsed * result (option bytes * bytes) :=
  match decode p raw with
  | Ok parsed_data => (put st (raw, parsed_data), Ok (Some raw, rest))
  | Raise EOFError => (st, Ok (None, buf))
  | Raise e => (st, Raise e)
  end.

(** ** Unfolding the loops *)

Lemma parse_nmea_loop_eq buf start hdr i :
  parse_nmea_loop buf start hdr i =
  match _read_bytes buf (start + 2) i with
  | Raise e => Raise e
  | Ok byten =>
      if bool_decide (last_two byten = CRLF) then
        let raw_data := hdr ++ byten in
        parsed_data ← NMEAReader_parse raw_data;
        mret (raw_data, parsed_data)
      else parse_nmea_loop buf start hdr (i + 1)
  end.
Proof.
  rewrite parse_nmea_loop_equation_1.
  destruct (inspect (_read_bytes buf (start + 2) i)) as [[byten|e] Hrd];
    match goal with |- ?lhs = _ => set (l := lhs) end;
    rewrite Hrd; reflexivity.
Qed.

Lemma parse_buffer_loop_eq st buf start :
  parse_buffer_loop st buf start =
  if decide (start < length buf) then
    match try_body buf start with
    | Ok Advance1 => parse_buffer_loop st buf (start + 1)
    | Ok Advance2 => parse_buffer_loop st buf (start + 2)
    | Ok (Extracted raw_data parsed_data) =>
        (put st (raw_data, parsed_data),
         Ok (Some raw_data, drop (start + length raw_data) buf))
    | Raise EOFError => (st, Ok (None, buf))
    | Raise e => (st, Raise e)
    end
  else (st, Ok (None, buf)).
Proof.
  rewrite parse_buffer_loop_equation_1.
  destruct (decide (start < length buf)) as [Hlt|Hge]; simpl; [|reflexivity].
  destruct (try_body buf start) as [[| |raw_data parsed_data]|[]]; reflexivity.
Qed.


(** ** Reading from the buffer *)

Lemma _read_bytes_take buf start num :
  start + num <= length buf ->
  _read_bytes buf start num = Ok (take num (drop start buf)).
Proof.
  intros Hle. unfold _read_bytes, slice.
  rewrite bool_decide_eq_false_2 by lia.
  do 2 f_equal. lia.
Qed.

Lemma _read_bytes_short buf start num :
  length buf < start + num -> _read_bytes buf start num = Raise EOFError.
Proof. intros Hlt. unfold _read_bytes. by rewrite bool_decide_eq_true_2. Qed.

Lemma _read_bytes_shift pre buf start num :
  _read_bytes (pre ++ buf) (length pre + start) num = _read_bytes buf start num.
Proof.
  unfold _read_bytes, slice. rewrite length_app, drop_app_add.
  repeat case_bool_decide; try lia; do 2 f_equal; lia.
Qed.

Lemma _read_bytes_one buf start :
  _read_bytes buf start 1 =
  match buf !! start with
  | Some b => Ok [b]
  | None => Raise EOFError
  end.
Proof.
  destruct (buf !! start) as [b|] eqn:Hb.
  - rewrite _read_bytes_take
      by (apply lookup_lt_Some in Hb; lia).
    by rewrite (drop_S _ _ _ Hb).
  - apply _read_bytes_short. apply lookup_ge_None in Hb. lia.
Qed.

Lemma bind_Ok {A B} (f : A -> result B) (a : A) : Ok a ≫= f = f a.
Proof. reflexivity. Qed.

(** ** One pass through the [try] block *)

#[global] Instance nonsync_dec b : Decision (nonsync b).
Proof. unfold nonsync. apply _. Defined.

Lemma try_body_eq buf start :
  try_body buf start =
  match buf !! start with
  | None => Raise EOFError
  | Some b1 =>
      if bool_decide (nonsync b1) then Ok Advance1
      else match buf !! (start + 1) with
           | None => Raise EOFError
           | Some b2 =>
               match classify b1 b2 with
               | Some p => extracted (slicer p buf start [b1; b2])
               | None => Ok Advance2
               end
           end
  end.
Proof.
  unfold try_body. rewrite !_read_bytes_one.
  destruct (buf !! start) as [b1|]; [|reflexivity]. cbn.
  destruct (decide (nonsync b1)) as [Hn|Hn].
  { by do 2 rewrite (bool_decide_eq_true_2 (nonsync b1)) by done. }
  do 2 rewrite (bool_decide_eq_false_2 (nonsync b1)) by done.
  destruct (buf !! (start + 1)) as [b2|]; [|reflexivity]. cbn.
  unfold classify.
  case_bool_decide; [reflexivity|].
  case_bool_decide; [reflexivity|].
  destruct (decide (b1 = xd3)) as [->|Hne].
  - rewrite (bool_decide_eq_true_2 ([xd3] = [xd3])) by done. cbn.
    destruct (decide (Z.land (byte_val b2) (Z.lnot 3) = 0%Z)) as [Hz|Hz].
    + by rewrite !bool_decide_eq_true_2.
    + rewrite !bool_decide_eq_false_2; [done|tauto|done].
  - rewrite !bool_decide_eq_false_2; [done|tauto|congruence].
Qed.

(** ** The slicers only look at the bytes from the cursor on *)

Lemma _read_bytes_drop buf start k num :
  start <= length buf ->
  _read_bytes buf (start + k) num = _read_bytes (drop start buf) k num.
Proof.
  intros Hle. rewrite <- (take_drop start buf) at 1.
  rewrite <- (_read_bytes_shift (take start buf) (drop start buf) k num).
  by rewrite length_take_le.
Qed.

Lemma parse_nmea_loop_drop buf start hdr i :
  start <= length buf ->
  parse_nmea_loop buf start hdr i = parse_nmea_loop (drop start buf) 0 hdr i.
Proof.
  intros Hle.
  remember (S (length buf) - (start + 2 + i)) as m eqn:Hm.
  revert i Hm. induction m as [m IH] using lt_wf_ind. intros i Hm.
  rewrite (parse_nmea_loop_eq buf), (parse_nmea_loop_eq (drop start buf)).
  replace (start + 2) with (start + (0 + 2)) by lia.
  rewrite _read_bytes_drop by done.
  destruct (_read_bytes (drop start buf) (0 + 2) i) as [byten|e] eqn:Hrd;
    [|done].
  case_bool_decide; [done|].
  apply _read_bytes_Ok in Hrd as (Hlen & _ & _). rewrite length_drop in Hlen.
  apply (IH (S (length buf) - (start + 2 + (i + 1)))); lia.
Qed.

Lemma slicer_drop p buf start hdr :
  start <= length buf ->
  slicer p buf start hdr = slicer p (drop start buf) 0 hdr.
Proof.
  intros Hle. destruct p; cbn.
  - unfold parse_ubx. change (0 + 2) with 2. change (0 + 6) with 6.
    rewrite (_read_bytes_drop buf start) by done.
    destruct (_read_bytes (drop start buf) 2 4) as [byten|e]; cbn; [|done].
    by rewrite (_read_bytes_drop buf start) by done.
  - by apply parse_nmea_loop_drop.
  - unfold parse_rtcm. change (0 + 2) with 2. change (0 + 3) with 3.
    rewrite (_read_bytes_drop buf start) by done.
    destruct (_read_bytes (drop start buf) 2 1) as [hdr3|e]; cbn; [|done].
    destruct (index hdr3 0) as [lo|e]; cbn; [|done].
    destruct (index hdr 1) as [hi|e]; cbn; [|done].
    by rewrite (_read_bytes_drop buf start) by done.
Qed.

(** ** Headers *)

Ltac bool_decide_cases :=
  repeat match goal with
    | |- context [bool_decide ?P] =>
        destruct (decide P);
        [rewrite (bool_decide_eq_true_2 P) by assumption
        |rewrite (bool_decide_eq_false_2 P) by assumption]
    end.

Lemma classify_UBX b1 b2 :
  classify b1 b2 = Some UBX <-> [b1; b2] = UBX_HDR.
Proof.
  unfold classify. bool_decide_cases; naive_solver.
Qed.

Lemma classify_NMEA b1 b2 :
  classify b1 b2 = Some NMEA <-> [b1; b2] <> UBX_HDR /\ [b1; b2] ∈ NMEA_HDR.
Proof.
  unfold classify. bool_decide_cases; naive_solver.
Qed.

Lemma classify_RTCM3 b1 b2 :
  classify b1 b2 = Some RTCM3 <->
  [b1; b2] <> UBX_HDR /\ ([b1; b2] ∉ NMEA_HDR) /\
  b1 = xd3 /\ Z.land (byte_val b2) (Z.lnot 3) = 0%Z.
Proof.
  unfold classify. bool_decide_cases; naive_solver.
Qed.

Lemma classify_None b1 b2 :
  classify b1 b2 = None <->
  [b1; b2] <> UBX_HDR /\ ([b1; b2] ∉ NMEA_HDR) /\
  ~ (b1 = xd3 /\ Z.land (byte_val b2) (Z.lnot 3) = 0%Z).
Proof.
  unfold classify. bool_decide_cases; naive_solver.
Qed.

Lemma byte_val_range b : (0 <= byte_val b <= 255)%Z.
Proof. unfold byte_val. pose proof (Byte.to_N_bounded b). lia. Qed.

Lemma rtcm_len_nonneg b2 b3 : (0 <= rtcm_len b2 b3)%Z.
Proof.
  unfold rtcm_len. apply Z.lor_nonneg. split.
  - apply byte_val_range.
  - apply Z.shiftl_nonneg, byte_val_range.
Qed.

(** ** The CR LF scan *)

Lemma ends_crlf_app body rest j :
  j <= length body -> ends_crlf (body ++ rest) j <-> ends_crlf body j.
Proof. intros Hj. unfold ends_crlf. by rewrite take_app_le. Qed.

Lemma first_crlf_app body rest k :
  k <= length body -> first_crlf (body ++ rest) k <-> first_crlf body k.
Proof.
  intros Hk. unfold first_crlf. rewrite length_app, ends_crlf_app by done.
  split; intros (Hle & He & Hmin); (split_and!; [lia|done|]);
    intros j Hj; specialize (Hmin j Hj);
    by rewrite ends_crlf_app in * by lia.
Qed.

Lemma first_crlf_unique body k1 k2 :
  first_crlf body k1 -> first_crlf body k2 -> k1 = k2.
Proof.
  intros (_ & He1 & Hm1) (_ & He2 & Hm2).
  destruct (Nat.lt_trichotomy k1 k2) as [Hlt|[->|Hlt]]; [|done|].
  - by destruct (Hm2 k1).
  - by destruct (Hm1 k2).
Qed.

(** ** What each slicer does at the head of the bytes it is given *)

Lemma int_from_bytes_little_nonneg b : (0 <= int_from_bytes_little b)%Z.
Proof.
  induction b as [|x b IH]; cbn; [lia|].
  pose proof (byte_val_range x). fold (int_from_bytes_little b). lia.
Qed.

Lemma ubx_len_app raw rest :
  6 <= length raw -> ubx_len (raw ++ rest) = ubx_len raw.
Proof.
  intros Hlen. unfold ubx_len, slice.
  rewrite drop_app_le by lia.
  rewrite take_app_le by (rewrite length_drop; lia). done.
Qed.

Lemma ubx_len_read d : slice (take 4 (drop 2 d)) 2 4 = slice d 4 6.
Proof.
  unfold slice. cbn [Nat.sub].
  rewrite skipn_firstn_comm, drop_drop, take_take. done.
Qed.

Lemma recognised_app p raw rest :
  2 <= length raw -> recognised p (raw ++ rest) <-> recognised p raw.
Proof. intros Hlen. unfold recognised. by rewrite take_app_le. Qed.

Lemma recognised_length p f : recognised p f -> 2 <= length f.
Proof.
  intros (b1 & b2 & Htake & _).
  apply (f_equal length) in Htake. rewrite length_take in Htake.
  change (length [b1; b2]) with 2 in Htake. lia.
Qed.

Lemma parse_ubx_cases d :
  recognised UBX d ->
  (parse_ubx d 0 (take 2 d) = Raise EOFError /\
   forall raw rest, d = raw ++ rest -> ~ frame UBX raw) \/
  (exists raw rest, d = raw ++ rest /\ frame UBX raw /\
                    parse_ubx d 0 (take 2 d) = deliver UBX raw).
Proof.
  intros Hrec. unfold parse_ubx. cbn [Nat.add].
  assert (Hnoframe : forall n, length d < n ->
            (6 <= length d -> n = 8 + Z.to_nat (ubx_len d)) ->
            forall raw rest, d = raw ++ rest -> ~ frame UBX raw).
  { intros n Hshort Hn raw rest -> [_ Hlay]. unfold layout in Hlay.
    rewrite length_app in *.
    rewrite ubx_len_app in Hn by lia. lia. }
  destruct (decide (length d < 6)) as [Hshort|Hlong].
  { left. rewrite _read_bytes_short by lia. split; [done|].
    apply (Hnoframe 6); [done|lia]. }
  rewrite _read_bytes_take, bind_Ok by lia.
  rewrite ubx_len_read. fold (ubx_len d).
  pose proof (int_from_bytes_little_nonneg (slice d 4 6)) as Hnn.
  fold (ubx_len d) in Hnn.
  replace (Z.to_nat (ubx_len d + 2)) with (Z.to_nat (ubx_len d) + 2) by lia.
  set (L := Z.to_nat (ubx_len d)) in *.
  destruct (decide (length d < 8 + L)) as [Hshort|Hfull].
  { left. rewrite _read_bytes_short by lia. split; [done|].
    apply (Hnoframe (8 + L)); [done|]. by intros _. }
  right. rewrite _read_bytes_take, bind_Ok by lia.
  assert (Hraw : take 2 d ++ take 4 (drop 2 d) ++ take (L + 2) (drop 6 d)
                 = take (8 + L) d).
  { rewrite app_assoc, (take_take_drop d 2 4).
    change (2 + 4) with 6. rewrite (take_take_drop d 6 (L + 2)).
    f_equal. lia. }
  rewrite Hraw. exists (take (8 + L) d), (drop (8 + L) d).
  split_and!; [by rewrite take_drop| |done].
  assert (Hlen : length (take (8 + L) d) = 8 + L)
    by (rewrite length_take; lia).
  split.
  - rewrite <- (take_drop (8 + L) d) in Hrec.
    by apply recognised_app in Hrec; [|lia].
  - unfold layout. rewrite Hlen.
    rewrite <- (ubx_len_app (take (8 + L) d) (drop (8 + L) d)) by lia.
    rewrite take_drop. subst L. lia.
Qed.

Lemma take_two_lookup (d : bytes) b1 b2 :
  take 2 d = [b1; b2] <-> d !! 0 = Some b1 /\ d !! 1 = Some b2.
Proof.
  destruct d as [|x1 [|x2 d]]; cbn.
  - split; [intros [=]|intros [[=] _]].
  - split; [intros [=]|intros [_ [=]]].
  - split; [intros [= -> ->]; done|intros [[= ->] [= ->]]; done].
Qed.

Lemma parse_rtcm_cases d :
  recognised RTCM3 d ->
  (parse_rtcm d 0 (take 2 d) = Raise EOFError /\
   forall raw rest, d = raw ++ rest -> ~ frame RTCM3 raw) \/
  (exists raw rest, d = raw ++ rest /\ frame RTCM3 raw /\
                    parse_rtcm d 0 (take 2 d) = deliver RTCM3 raw).
Proof.
  intros Hrec. pose proof Hrec as (b1 & b2 & Htake & _ & _).
  pose proof Htake as [_ Hb2]%take_two_lookup.
  unfold parse_rtcm. cbn [Nat.add]. rewrite _read_bytes_one.
  destruct (d !! 2) as [b3|] eqn:Hb3.
  2:{ left. split; [done|]. intros raw rest -> [_ (c2 & c3 & _ & Hc3 & _)].
      apply (lookup_app_l_Some _ rest) in Hc3.
      rewrite Hb3 in Hc3. discriminate. }
  rewrite bind_Ok, Htake.
  change (index [b3] 0) with (Ok (A:=Z) (byte_val b3)).
  change (index [b1; b2] 1) with (Ok (A:=Z) (byte_val b2)).
  rewrite !bind_Ok. fold (rtcm_len b2 b3).
  pose proof (rtcm_len_nonneg b2 b3) as Hnn.
  replace (Z.to_nat (rtcm_len b2 b3 + 3))
    with (Z.to_nat (rtcm_len b2 b3) + 3) by lia.
  set (L := Z.to_nat (rtcm_len b2 b3)) in *.
  assert (Hlay : forall raw rest, d = raw ++ rest -> layout RTCM3 raw ->
                   length raw = 6 + L).
  { intros raw rest -> (c2 & c3 & Hc2 & Hc3 & Hlen).
    apply (lookup_app_l_Some _ rest) in Hc2, Hc3.
    rewrite Hb2 in Hc2. rewrite Hb3 in Hc3.
    injection Hc2 as <-. injection Hc3 as <-. subst L. lia. }
  destruct (decide (length d < 6 + L)) as [Hshort|Hfull].
  { left. rewrite _read_bytes_short by lia. split; [done|].
    intros raw rest Hd [_ Hl]. pose proof (Hlay _ _ Hd Hl) as Hlen.
    subst d. rewrite length_app in Hshort. lia. }
  right. rewrite _read_bytes_take, bind_Ok by lia.
  assert (Hraw : [b1; b2] ++ [b3] ++ take (L + 3) (drop 3 d) = take (6 + L) d).
  { rewrite <- Htake.
    assert ([b3] = take 1 (drop 2 d)) as -> by (by rewrite (drop_S _ _ _ Hb3)).
    rewrite app_assoc, (take_take_drop d 2 1).
    change (2 + 1) with 3. rewrite (take_take_drop d 3 (L + 3)).
    f_equal. lia. }
  rewrite Hraw. exists (take (6 + L) d), (drop (6 + L) d).
  split_and!; [by rewrite take_drop| |done].
  assert (Hlen : length (take (6 + L) d) = 6 + L)
    by (rewrite length_take; lia).
  split.
  - rewrite <- (take_drop (6 + L) d) in Hrec.
    by apply recognised_app in Hrec; [|lia].
  - exists b2, b3. rewrite !lookup_take_lt by lia.
    split_and!; [done|done|]. rewrite Hlen. subst L. lia.
Qed.

Lemma parse_nmea_loop_cases d hdr i :
  2 <= length d ->
  (forall j, j < i -> ~ ends_crlf (drop 2 d) j) ->
  (parse_nmea_loop d 0 hdr i = Raise EOFError /\
   forall j, j <= length (drop 2 d) -> ~ ends_crlf (drop 2 d) j) \/
  (exists k, first_crlf (drop 2 d) k /\
             parse_nmea_loop d 0 hdr i = deliver NMEA (hdr ++ take k (drop 2 d))).
Proof.
  remember (S (length d) - (2 + i)) as m eqn:Hm.
  intros Hlen2.
  revert i Hm. induction m as [m IH] using lt_wf_ind. intros i Hm Hbelow.
  rewrite parse_nmea_loop_eq. cbn [Nat.add].
  destruct (decide (length (drop 2 d) < i)) as [Hshort|Hfits].
  { left. rewrite length_drop in Hshort.
    rewrite _read_bytes_short by lia. split; [done|].
    intros j Hj. apply Hbelow. rewrite length_drop in Hj. lia. }
  rewrite length_drop in Hfits. rewrite _read_bytes_take by lia.
  case_bool_decide as Hcr.
  - right. exists i. split; [|done].
    split_and!; [rewrite length_drop; lia|done|done].
  - apply (IH (S (length d) - (2 + (i + 1)))); [lia|done|].
    intros j Hj. destruct (decide (j = i)) as [->|Hne]; [done|].
    apply Hbelow. lia.
Qed.

Lemma parse_nmea_cases d :
  recognised NMEA d ->
  (parse_nmea d 0 (take 2 d) = Raise EOFError /\
   forall raw rest, d = raw ++ rest -> ~ frame NMEA raw) \/
  (exists raw rest, d = raw ++ rest /\ frame NMEA raw /\
                    parse_nmea d 0 (take 2 d) = deliver NMEA raw).
Proof.
  intros Hrec. pose proof (recognised_length _ _ Hrec) as Hlen2.
  unfold parse_nmea.
  destruct (parse_nmea_loop_cases d (take 2 d) 1) as [[-> Hno]|(k & Hk & ->)].
  { done. }
  { intros j Hj. assert (j = 0) as -> by lia.
    unfold ends_crlf. by rewrite take_0. }
  - left. split; [done|]. intros raw rest -> [Hr (Hle & He & _)].
    apply recognised_length in Hr.
    rewrite drop_app_le in Hno by lia.
    apply (Hno (length raw - 2)).
    + rewrite length_app, !length_drop. lia.
    + by apply ends_crlf_app.
  - right. pose proof Hk as (Hkle & _ & _). rewrite length_drop in Hkle.
    assert (Hraw : take 2 d ++ take k (drop 2 d) = take (2 + k) d)
      by apply take_take_drop.
    rewrite Hraw. exists (take (2 + k) d), (drop (2 + k) d).
    split_and!; [by rewrite take_drop| |done].
    assert (Hlen : length (take (2 + k) d) = 2 + k)
      by (rewrite length_take; lia).
    split.
    + rewrite <- (take_drop (2 + k) d) in Hrec.
      by apply recognised_app in Hrec; [|lia].
    + unfold layout. rewrite Hlen. replace (2 + k - 2) with k by lia.
      rewrite <- (take_drop (2 + k) d) in Hk.
      rewrite drop_app_le in Hk by lia.
      apply first_crlf_app in Hk; [done|]. rewrite length_drop. lia.
Qed.

Lemma slicer_cases p d :
  recognised p d ->
  (slicer p d 0 (take 2 d) = Raise EOFError /\
   forall raw rest, d = raw ++ rest -> ~ frame p raw) \/
  (exists raw rest, d = raw ++ rest /\ frame p raw /\
                    slicer p d 0 (take 2 d) = deliver p raw).
Proof.
  destruct p; cbn [slicer].
  - apply parse_ubx_cases.
  - apply parse_nmea_cases.
  - apply parse_rtcm_cases.
Qed.

(** No frame is a proper prefix of another frame of the same protocol. *)
Lemma frame_unique p raw1 rest1 raw2 rest2 :
  frame p raw1 -> frame p raw2 -> raw1 ++ rest1 = raw2 ++ rest2 ->
  raw1 = raw2 /\ rest1 = rest2.
Proof.
  intros [Hr1 Hl1] [Hr2 Hl2] Heq.
  apply app_inj_1; [|done].
  apply recognised_length in Hr1, Hr2.
  destruct p; unfold layout in Hl1, Hl2.
  - rewrite <- (ubx_len_app raw1 rest1) in Hl1 by lia.
    rewrite <- (ubx_len_app raw2 rest2) in Hl2 by lia.
    rewrite Heq in Hl1. lia.
  - apply (first_crlf_app _ rest1) in Hl1; [|rewrite length_drop; lia].
    apply (first_crlf_app _ rest2) in Hl2; [|rewrite length_drop; lia].
    rewrite <- drop_app_le in Hl1, Hl2 by lia. rewrite Heq in Hl1.
    pose proof (first_crlf_unique _ _ _ Hl1 Hl2). lia.
  - destruct Hl1 as (b2 & b3 & Hb2 & Hb3 & Hlen1).
    destruct Hl2 as (c2 & c3 & Hc2 & Hc3 & Hlen2).
    apply (lookup_app_l_Some _ rest1) in Hb2, Hb3.
    apply (lookup_app_l_Some _ rest2) in Hc2, Hc3.
    rewrite Heq in Hb2, Hb3. rewrite Hb2 in Hc2. rewrite Hb3 in Hc3.
    injection Hc2 as <-. injection Hc3 as <-. lia.
Qed.

Lemma slicer_found p raw rest :
  frame p raw -> slicer p (raw ++ rest) 0 (take 2 raw) = deliver p raw.
Proof.
  intros Hf. pose proof Hf as [Hrec _].
  pose proof (recognised_length _ _ Hrec) as Hlen.
  rewrite <- (take_app_le raw rest 2) by done.
  destruct (slicer_cases p (raw ++ rest)) as [[_ Hno]|(raw' & rest' & Heq & Hf' & ->)].
  - by apply recognised_app.
  - by destruct (Hno raw rest).
  - by destruct (frame_unique p raw rest raw' rest') as [-> _].
Qed.

Lemma slicer_stalled p d :
  recognised p d ->
  (forall raw rest, d = raw ++ rest -> ~ frame p raw) ->
  slicer p d 0 (take 2 d) = Raise EOFError.
Proof.
  intros Hrec Hno.
  destruct (slicer_cases p d Hrec) as [[-> _]|(raw & rest & Heq & Hf & _)];
    [done|].
  by destruct (Hno raw rest).
Qed.

(** ** The scan loop *)

Lemma lookup_two_drop (buf : bytes) start b1 b2 :
  buf !! start = Some b1 -> buf !! (start + 1) = Some b2 ->
  take 2 (drop start buf) = [b1; b2].
Proof.
  intros H1 H2. apply take_two_lookup.
  rewrite !lookup_drop. by rewrite Nat.add_0_r.
Qed.

Lemma drop_app_lookup (buf : bytes) start raw rest b1 b2 :
  drop start buf = raw ++ rest -> take 2 raw = [b1; b2] ->
  start < length buf /\ buf !! start = Some b1 /\ buf !! (start + 1) = Some b2.
Proof.
  intros Hd [H1 H2]%take_two_lookup.
  apply (lookup_app_l_Some _ rest) in H1, H2.
  rewrite <- Hd, lookup_drop in H1, H2. rewrite Nat.add_0_r in H1.
  split_and!; [|done|done]. by apply lookup_lt_Some in H1.
Qed.

Lemma deliver_outcome st buf start p raw rest :
  drop start buf = raw ++ rest ->
  match extracted (deliver p raw) with
  | Ok Advance1 => parse_buffer_loop st buf (start + 1)
  | Ok Advance2 => parse_buffer_loop st buf (start + 2)
  | Ok (Extracted raw_data parsed_data) =>
      (put st (raw_data, parsed_data),
       Ok (Some raw_data, drop (start + length raw_data) buf))
  | Raise EOFError => (st, Ok (None, buf))
  | Raise e => (st, Raise e)
  end = outcome_of st buf p raw rest.
Proof.
  intros Hd. unfold outcome_of, deliver, extracted.
  destruct (decode p raw) as [v|e]; cbn.
  - by rewrite <- drop_drop, Hd, drop_app_length.
  - by destruct e.
Qed.

Lemma loop_at_frame st buf start p raw rest :
  drop start buf = raw ++ rest -> frame p raw ->
  parse_buffer_loop st buf start = outcome_of st buf p raw rest.
Proof.
  intros Hd Hf. pose proof Hf as [(b1 & b2 & Htake & Hsync & Hcl) _].
  destruct (drop_app_lookup _ _ _ _ _ _ Hd Htake) as (Hlt & Hb1 & Hb2).
  rewrite parse_buffer_loop_eq, decide_True by done.
  rewrite try_body_eq, Hb1, bool_decide_eq_false_2, Hb2, Hcl by done.
  rewrite slicer_drop, Hd, <- Htake, slicer_found by (done || lia).
  by apply deliver_outcome.
Qed.

Lemma loop_finds st buf s start p raw rest :
  finds buf s start p raw rest ->
  parse_buffer_loop st buf s = outcome_of st buf p raw rest.
Proof.
  intros (Hrun & Hd & Hf).
  induction Hrun as [s|s e b Hb Hn _ IH|s e b1 b2 Hb1 Hb2 Hs Hcl _ IH].
  - by apply loop_at_frame.
  - rewrite <- IH by done.
    rewrite parse_buffer_loop_eq, decide_True by by apply lookup_lt_Some in Hb.
    by rewrite try_body_eq, Hb, bool_decide_eq_true_2.
  - rewrite <- IH by done.
    rewrite parse_buffer_loop_eq, decide_True
      by by apply lookup_lt_Some in Hb1.
    by rewrite try_body_eq, Hb1, bool_decide_eq_false_2, Hb2, Hcl.
Qed.

Lemma loop_stalls st buf e :
  stalls buf e -> parse_buffer_loop st buf e = (st, Ok (None, buf)).
Proof.
  intros Hst. rewrite parse_buffer_loop_eq.
  destruct Hst as [Hend|b1 Hb1 Hs Hb2|b1 b2 p Hb1 Hb2 Hs Hcl Hno].
  - by rewrite decide_False by lia.
  - rewrite decide_True by by apply lookup_lt_Some in Hb1.
    by rewrite try_body_eq, Hb1, bool_decide_eq_false_2, Hb2.
  - pose proof (lookup_lt_Some _ _ _ Hb1) as Hlt.
    rewrite decide_True by done.
    rewrite try_body_eq, Hb1, bool_decide_eq_false_2, Hb2, Hcl by done.
    rewrite slicer_drop by lia.
    rewrite <- (lookup_two_drop buf e b1 b2) by done.
    rewrite slicer_stalled; [done| |done].
    exists b1, b2. split_and!; [|done|done]. by apply lookup_two_drop.
Qed.

Lemma loop_waits st buf s :
  waits buf s -> parse_buffer_loop st buf s = (st, Ok (None, buf)).
Proof.
  intros (e & Hrun & Hst).
  induction Hrun as [s|s e b Hb Hn _ IH|s e b1 b2 Hb1 Hb2 Hs Hcl _ IH].
  - by apply loop_stalls.
  - rewrite <- IH by done.
    rewrite parse_buffer_loop_eq, decide_True by by apply lookup_lt_Some in Hb.
    by rewrite try_body_eq, Hb, bool_decide_eq_true_2.
  - rewrite <- IH by done.
    rewrite parse_buffer_loop_eq, decide_True
      by by apply lookup_lt_Some in Hb1.
    by rewrite try_body_eq, Hb1, bool_decide_eq_false_2, Hb2, Hcl.
Qed.

(** Every scan either waits or finds a frame. *)
Lemma waits_or_finds buf s :
  waits buf s \/ exists start p raw rest, finds buf s start p raw rest.
Proof using All.
  remember (length buf - s) as m eqn:Hm.
  revert s Hm. induction m as [m IH] using lt_wf_ind. intros s Hm.
  destruct (buf !! s) as [b1|] eqn:Hb1.
  2:{ left. exists s. split; [constructor|].
      apply stall_end. by apply lookup_ge_None. }
  pose proof (lookup_lt_Some _ _ _ Hb1) as Hlt.
  destruct (decide (nonsync b1)) as [Hn|Hs].
  { destruct (IH (length buf - (s + 1)) ltac:(lia) (s + 1) eq_refl)
      as [(e & Hrun & Hst)|(start & p & raw & rest & Hrun & Hd & Hf)].
    - left. exists e. split; [|done]. by eapply noise_one.
    - right. exists start, p, raw, rest. split_and!; [|done|done].
      by eapply noise_one. }
  destruct (buf !! (s + 1)) as [b2|] eqn:Hb2.
  2:{ left. exists s. split; [constructor|]. by eapply stall_header. }
  destruct (classify b1 b2) as [p|] eqn:Hcl.
  2:{ destruct (IH (length buf - (s + 2)) ltac:(lia) (s + 2) eq_refl)
        as [(e & Hrun & Hst)|(start & p & raw & rest & Hrun & Hd & Hf)].
      - left. exists e. split; [|done]. by eapply noise_two.
      - right. exists start, p, raw, rest. split_and!; [|done|done].
        by eapply noise_two. }
  assert (Hrec : recognised p (drop s buf)).
  { exists b1, b2. split_and!; [|done|done]. by apply lookup_two_drop. }
  destruct (slicer_cases p (drop s buf) Hrec)
    as [[_ Hno]|(raw & rest & Hd & Hf & _)].
  - left. exists s. split; [constructor|]. by eapply stall_frame.
  - right. exists s, p, raw, rest. split_and!; [constructor|done|done].
Qed.

(** What [parse_buffer] returns, read backwards. *)
Lemma parse_buffer_loop_inv st buf s :
  (waits buf s /\ parse_buffer_loop st buf s = (st, Ok (None, buf))) \/
  (exists start p raw rest,
      finds buf s start p raw rest /\
      parse_buffer_loop st buf s = outcome_of st buf p raw rest).
Proof using All.
  destruct (waits_or_finds buf s) as [Hw|(start & p & raw & rest & Hf)].
  - left. split; [done|]. by apply loop_waits.
  - right. exists start, p, raw, rest. split; [done|].
    by apply (loop_finds st buf s start).
Qed.

Lemma outcome_of_Some st buf p raw rest st' raw' rem :
  outcome_of st buf p raw rest = (st', Ok (Some raw', rem)) ->
  exists parsed_data,
    decode p raw = Ok parsed_data /\ st' = put st (raw, parsed_data) /\
    raw' = raw /\ rem = rest.
Proof.
  unfold outcome_of. destruct (decode p raw) as [v|[]]; intros [= <- <- <-];
    by exists v.
Qed.

Lemma outcome_of_None st buf p raw rest st' rem :
  outcome_of st buf p raw rest = (st', Ok (None, rem)) ->
  decode p raw = Raise EOFError /\ st' = st /\ rem = buf.
Proof.
  unfold outcome_of. by destruct (decode p raw) as [v|[]]; intros [= <- <-].
Qed.

Lemma outcome_of_Raise st buf p raw rest st' e :
  outcome_of st buf p raw rest = (st', Raise e) ->
  decode p raw = Raise e /\ e <> EOFError /\ st' = st.
Proof.
  unfold outcome_of. by destruct (decode p raw) as [v|[]]; intros [= <- <-].
Qed.

Lemma finds_split buf s start p raw rest :
  finds buf s start p raw rest ->
  buf = take start buf ++ raw ++ rest /\ start < length buf /\ 2 <= length raw.
Proof.
  intros (_ & Hd & [Hrec _]). apply recognised_length in Hrec.
  split_and!; [by rewrite <- Hd, take_drop| |done].
  apply (f_equal length) in Hd. rewrite length_drop, length_app in Hd. lia.
Qed.

Lemma parse_buffer_shrinks st buf st' raw rem :
  parse_buffer st buf = (st', Ok (Some raw, rem)) -> length rem < length buf.
Proof using All.
  unfold parse_buffer. intros Hpb.
  destruct (parse_buffer_loop_inv st buf 0)
    as [[_ Hw]|(start & p & raw' & rest & Hf & Ho)]; [congruence|].
  rewrite Hpb in Ho. symmetry in Ho.
  apply outcome_of_Some in Ho as (v & _ & _ & -> & ->).
  apply finds_split in Hf as (Hbuf & _ & Hlen).
  apply (f_equal length) in Hbuf. rewrite !length_app in Hbuf. lia.
Qed.

(** ** The receive loop *)

(** The inner [while True] of [_read_thread] (lines 228-231): call
    [parse_buffer] until it returns no frame. *)
Equations? drain (st : app parsed) (buf : bytes) : app parsed * result bytes
  by wf (length buf) lt :=
  drain st buf with inspect (parse_buffer st buf) := {
    | exist _ (st', Raise e) _ => (st', Raise e)
    | exist _ (st', Ok (None, buf')) _ => (st', Ok buf')
    | exist _ (st', Ok (Some raw, buf')) Hpb => drain st' buf' }.
Proof. by eapply parse_buffer_shrinks. Qed.

(** How [_read_thread] ends. *)
Inductive thread_end : Type :=
| Blocked (buf : bytes)   (* waiting in [recv] for more data *)
| Closed (buf : bytes)    (* [recv] returned no data: the loop condition fails *)
| Handled (e : exn)       (* caught by one of the [except] clauses *)
| Uncaught (e : exn).     (* the exception leaves [_read_thread] *)

(** The [except] clauses of [_read_thread] (lines 232-236). *)
Definition handle (st : app parsed) (e : exn) : app parsed * thread_end :=
  match e with
  | TimeoutError => (notify st socket_eof, Handled e)
  | OSError | AttributeError => (notify st (status_error e), Handled e)
  | _ => (st, Uncaught e)
  end.

(** The outer loop of [_read_thread] (lines 221-231) against a script of
    what the successive [recv] calls return.  [self._reading] is only
    cleared from other threads; here it stays set. *)
Fixpoint read_loop (recvs : list (result bytes)) (st : app parsed) (buf : bytes)
  : app parsed * thread_end :=
  match recvs with
  | [] => (st, Blocked buf)
  | Raise e :: _ => handle st e
  | Ok data :: recvs' =>
      let buf := buf ++ data in
      match drain st buf with
      | (st', Raise e) => handle st' e
      | (st', Ok buf') =>
          if bool_decide (data = []) then (st', Closed buf')
          else read_loop recvs' st' buf'
      end
  end.

Definition _read_thread (recvs : list (result bytes)) (st : app parsed)
  : app parsed * thread_end :=
  read_loop recvs st [].

Lemma drain_eq st buf :
  drain st buf =
  match parse_buffer st buf with
  | (st', Raise e) => (st', Raise e)
  | (st', Ok (None, buf')) => (st', Ok buf')
  | (st', Ok (Some raw, buf')) => drain st' buf'
  end.
Proof using All.
  rewrite drain_equation_1.
  destruct (inspect (parse_buffer st buf)) as [[st' [[[raw|] buf']|e]] Hpb];
    match goal with |- ?lhs = _ => set (l := lhs) end;
    rewrite Hpb; reflexivity.
Qed.

(** ** More bytes after the buffer do not change what was decided *)

Lemma noise_run_app buf more s e :
  noise_run buf s e -> noise_run (buf ++ more) s e.
Proof.
  induction 1 as [s|s e b Hb Hn _ IH|s e b1 b2 Hb1 Hb2 Hs Hcl _ IH].
  - constructor.
  - eapply noise_one; [by apply lookup_app_l_Some|done|done].
  - eapply noise_two; [by apply lookup_app_l_Some..|done|done|done].
Qed.

Lemma finds_app buf more s start p raw rest :
  finds buf s start p raw rest ->
  finds (buf ++ more) s start p raw (rest ++ more).
Proof.
  intros Hf. pose proof (finds_split _ _ _ _ _ _ Hf) as (_ & Hlt & _).
  destruct Hf as (Hrun & Hd & Hfr).
  split_and!; [by apply noise_run_app| |done].
  by rewrite drop_app_le, Hd, <- app_assoc by lia.
Qed.

Lemma parse_buffer_app st buf more :
  match parse_buffer st buf with
  | (st', Ok (Some raw, rem)) =>
      parse_buffer st (buf ++ more) = (st', Ok (Some raw, rem ++ more))
  | (st', Raise e) => parse_buffer st (buf ++ more) = (st', Raise e)
  | (st', Ok (None, rem)) => st' = st /\ rem = buf
  end.
Proof using All.
  unfold parse_buffer.
  destruct (parse_buffer_loop_inv st buf 0)
    as [[_ ->]|(start & p & raw & rest & Hf & ->)]; [done|].
  rewrite (loop_finds st (buf ++ more) 0 start p raw (rest ++ more))
    by by apply finds_app.
  unfold outcome_of. by destruct (decode p raw) as [v|[]].
Qed.

Lemma parse_buffer_None st buf st' rem :
  parse_buffer st buf = (st', Ok (None, rem)) -> st' = st /\ rem = buf.
Proof using All.
  intros Hpb. pose proof (parse_buffer_app st buf []) as Happ.
  by rewrite Hpb in Happ.
Qed.

Lemma drain_app st buf more :
  drain st (buf ++ more) =
  match drain st buf with
  | (st', Ok buf') => drain st' (buf' ++ more)
  | (st', Raise e) => (st', Raise e)
  end.
Proof using All.
  remember (length buf) as m eqn:Hm.
  revert st buf Hm. induction m as [m IH] using lt_wf_ind. intros st buf Hm.
  rewrite (drain_eq st buf).
  pose proof (parse_buffer_app st buf more) as Happ.
  destruct (parse_buffer st buf) as [st' [[[raw|] rem]|e]] eqn:Hpb.
  - rewrite (drain_eq st (buf ++ more)), Happ.
    apply (IH (length rem)); [|done].
    subst m. by eapply parse_buffer_shrinks.
  - by destruct Happ as [-> ->].
  - by rewrite (drain_eq st (buf ++ more)), Happ.
Qed.

(** Once drained, a buffer yields nothing more until bytes are added. *)
Lemma drain_idem st buf st' buf' :
  drain st buf = (st', Ok buf') -> drain st' buf' = (st', Ok buf').
Proof using All.
  remember (length buf) as m eqn:Hm.
  revert st buf Hm. induction m as [m IH] using lt_wf_ind. intros st buf Hm.
  rewrite (drain_eq st buf).
  destruct (parse_buffer st buf) as [st1 [[[raw|] rem]|e]] eqn:Hpb.
  - apply (IH (length rem)); [|done].
    subst m. by eapply parse_buffer_shrinks.
  - intros [= <- <-]. apply parse_buffer_None in Hpb as Hsame.
    destruct Hsame as [-> ->]. by rewrite drain_eq, Hpb.
  - discriminate.
Qed.

Lemma drain_nil st : drain st [] = (st, Ok []).
Proof using All.
  rewrite drain_eq. unfold parse_buffer.
  by rewrite parse_buffer_loop_eq, decide_False by (cbn; lia).
Qed.

(** Feeding a drained buffer chunk by chunk is feeding it the whole stream. *)
Lemma read_loop_concat chunks st buf :
  Forall (fun c => c <> []) chunks ->
  drain st buf = (st, Ok buf) ->
  read_loop (Ok <$> chunks) st buf =
  match drain st (buf ++ concat chunks) with
  | (st', Ok buf') => (st', Blocked buf')
  | (st', Raise e) => handle st' e
  end.
Proof using All.
  intros Hne. revert st buf.
  induction Hne as [|c chunks Hc _ IH]; intros st buf Hdr.
  - cbn. by rewrite app_nil_r, Hdr.
  - cbn [fmap list_fmap read_loop concat].
    rewrite app_assoc, (drain_app st (buf ++ c)).
    destruct (drain st (buf ++ c)) as [st' [buf'|e]] eqn:Hdc; [|done].
    rewrite bool_decide_eq_false_2 by done.
    apply IH. by eapply drain_idem.
Qed.

(** ** Noise before a frame, and frames that are not yet whole *)

Lemma noise_run_skip pre noise tail :
  Forall nonsync noise ->
  noise_run (pre ++ noise ++ tail) (length pre) (length pre + length noise).
Proof.
  intros Hn. revert pre.
  induction Hn as [|b noise Hb _ IH]; intros pre.
  - cbn. rewrite Nat.add_0_r. constructor.
  - eapply noise_one; [by apply list_lookup_middle|done|].
    specialize (IH (pre ++ [b])).
    rewrite <- app_assoc, length_app in IH. cbn in IH. cbn [length].
    by replace (length pre + S (length noise))
      with (length pre + 1 + length noise) by lia.
Qed.

Lemma noise_run_prefix noise tail :
  Forall nonsync noise -> noise_run (noise ++ tail) 0 (length noise).
Proof. intros Hn. by apply (noise_run_skip [] noise tail). Qed.

Lemma finds_after_noise noise p f rest :
  Forall nonsync noise -> frame p f ->
  finds (noise ++ f ++ rest) 0 (length noise) p f rest.
Proof.
  intros Hn Hf. split_and!; [by apply noise_run_prefix| |done].
  by rewrite drop_app_length.
Qed.

Lemma parse_buffer_frame st noise p f rest :
  Forall nonsync noise -> frame p f ->
  parse_buffer st (noise ++ f ++ rest)
  = outcome_of st (noise ++ f ++ rest) p f rest.
Proof.
  intros Hn Hf. apply (loop_finds st _ 0 (length noise)).
  by apply finds_after_noise.
Qed.

Lemma waits_noise noise : Forall nonsync noise -> waits noise 0.
Proof.
  intros Hn. exists (length noise). split.
  - rewrite <- (app_nil_r noise) at 1. by apply noise_run_prefix.
  - by apply stall_end.
Qed.

Lemma waits_partial noise p f pre suf :
  Forall nonsync noise -> frame p f -> f = pre ++ suf -> suf <> [] ->
  waits (noise ++ pre) 0.
Proof.
  intros Hn Hf -> Hsuf. exists (length noise).
  split; [by apply noise_run_prefix|].
  pose proof Hf as [(b1 & b2 & Htake & Hs & Hcl) _].
  destruct pre as [|c1 [|c2 pre]].
  - apply stall_end. rewrite app_nil_r. lia.
  - assert (c1 = b1) as ->.
    { destruct suf; [done|]. cbn in Htake. congruence. }
    apply (stall_header _ _ b1); [by apply list_lookup_middle|done|].
    apply lookup_ge_None. rewrite length_app. cbn. lia.
  - cbn in Htake. injection Htake as -> ->.
    apply (stall_frame _ _ b1 b2 p); [by apply list_lookup_middle| |done|done|].
    + replace (noise ++ b1 :: b2 :: pre) with ((noise ++ [b1]) ++ b2 :: pre)
        by by rewrite <- app_assoc.
      apply list_lookup_middle. rewrite length_app. cbn. lia.
    + rewrite drop_app_length. intros raw rest Heq Hraw.
      destruct (frame_unique p raw (rest ++ suf) (b1 :: b2 :: pre ++ suf) [])
        as [_ Hnil]; [done|done| |].
      * rewrite app_nil_r, app_assoc, <- Heq. done.
      * by apply app_eq_nil in Hnil as [_ ->].
Qed.

(** ** Streams of frames with noise between them *)

(** A stream: before each frame a run of noise, and [trailing] after the last
    frame. *)
Fixpoint noisy (segs : list (bytes * (protocol * bytes))) (trailing : bytes)
  : bytes :=
  match segs with
  | [] => trailing
  | (noise, (p, f)) :: segs' => noise ++ f ++ noisy segs' trailing
  end.

(** The same frames with nothing between them. *)
Definition clean (frames : list (protocol * bytes)) : bytes :=
  noisy ((fun pf => ([], pf)) <$> frames) [].

(** What draining a stream comes to: frames are delivered until a decoder
    raises. *)
Fixpoint expected (st : app parsed) (segs : list (bytes * (protocol * bytes)))
    (trailing : bytes) : app parsed * result bytes :=
  match segs with
  | [] => (st, Ok trailing)
  | (noise, (p, f)) :: segs' =>
      match decode p f with
      | Ok parsed_data => expected (put st (f, parsed_data)) segs' trailing
      | Raise EOFError => (st, Ok (noise ++ f ++ noisy segs' trailing))
      | Raise e => (st, Raise e)
      end
  end.

Definition well_formed (segs : list (bytes * (protocol * bytes))) : Prop :=
  Forall (fun s => Forall nonsync s.1 /\ frame s.2.1 s.2.2) segs.

(** A run of noise the scan crosses in whole steps: bytes that are not first
    sync bytes, each skipped alone, and first sync bytes that with the noise
    byte after them make a header dispatched nowhere, skipped as a pair. *)
Inductive skipped_noise : bytes -> Prop :=
| skipped_nil : skipped_noise []
| skipped_one b noise :
    nonsync b -> skipped_noise noise -> skipped_noise (b :: noise)
| skipped_two b1 b2 noise :
    ~ nonsync b1 -> classify b1 b2 = None -> skipped_noise noise ->
    skipped_noise (b1 :: b2 :: noise).

(** Frames, each after a run of noise the scan crosses in whole steps. *)
Definition tolerated (segs : list (bytes * (protocol * bytes))) : Prop :=
  Forall (fun s => skipped_noise s.1 /\ frame s.2.1 s.2.2) segs.

(** The bytes of [noise] match no sync pattern: no two adjacent bytes of it
    are a header that [parse_buffer] dispatches. *)
Definition unmatched (noise : bytes) : Prop :=
  forall i b1 b2,
    noise !! i = Some b1 -> noise !! (i + 1) = Some b2 -> classify b1 b2 = None.

(** The exception a result carries, if any. *)
Definition raised {A} (r : result A) : option exn :=
  match r with
  | Ok _ => None
  | Raise e => Some e
  end.

(** The frames [raws] lie in [stream] in this order, one after the other,
    and [residual] is what follows the last of them. *)
Inductive in_order : list bytes -> bytes -> bytes -> Prop :=
| in_order_nil stream : in_order [] stream stream
| in_order_cons skipped raw raws stream residual :
    in_order raws stream residual ->
    in_order (raw :: raws) (skipped ++ raw ++ stream) residual.

Lemma drain_noisy st segs trailing :
  well_formed segs -> Forall nonsync trailing ->
  drain st (noisy segs trailing) = expected st segs trailing.
Proof using All.
  intros Hwf Htr. revert st.
  induction Hwf as [|[noise [p f]] segs [Hn Hf] _ IH]; intros st; cbn.
  - rewrite drain_eq. unfold parse_buffer.
    by rewrite loop_waits by by apply waits_noise.
  - cbn in Hn, Hf. rewrite drain_eq, (parse_buffer_frame st noise p f) by done.
    unfold outcome_of. destruct (decode p f) as [v|e]; [by rewrite IH|].
    by destruct e.
Qed.

Lemma expected_strip st segs trailing :
  (expected st segs trailing).1
  = (expected st ((fun pf => ([], pf)) <$> segs.*2) []).1 /\
  raised (expected st segs trailing).2
  = raised (expected st ((fun pf => ([], pf)) <$> segs.*2) []).2.
Proof.
  revert st. induction segs as [|[noise [p f]] segs IH]; intros st; cbn.
  - done.
  - destruct (decode p f) as [v|e]; [apply IH|]. by destruct e.
Qed.

Lemma expected_queue st segs trailing :
  exists new,
    _msgqueue (expected st segs trailing).1 = _msgqueue st ++ new /\
    new.*1 `prefix_of` segs.*2.*2 /\
    (Forall (fun s => exists v, decode s.2.1 s.2.2 = Ok v) segs ->
     new.*1 = segs.*2.*2 /\ (expected st segs trailing).2 = Ok trailing).
Proof.
  revert st. induction segs as [|[noise [p f]] segs IH]; intros st; cbn.
  - exists []. rewrite app_nil_r. split_and!; [done|done|done].
  - destruct (decode p f) as [v|e] eqn:Hdec.
    + destruct (IH (put st (f, v))) as (new & Hq & Hpre & Hall).
      exists ((f, v) :: new). cbn in Hq. rewrite <- app_assoc in Hq.
      split_and!; [done|by apply prefix_cons|].
      intros Hok. apply Forall_cons in Hok as [_ Hok].
      destruct (Hall Hok) as [Hnew Hres]. cbn. by rewrite Hnew.
    + exists []. rewrite app_nil_r.
      split_and!; [by destruct e|apply prefix_nil|].
      intros Hok. apply Forall_cons in Hok as [[v Hv] _]. cbn in Hv.
      congruence.
Qed.

(** ** Properties of an extraction *)

Lemma recognised_inj p q f : recognised p f -> recognised q f -> p = q.
Proof.
  intros (b1 & b2 & Ht & _ & Hp) (c1 & c2 & Ht' & _ & Hq).
  rewrite Ht in Ht'. injection Ht' as <- <-. congruence.
Qed.

Lemma parse_buffer_Some st buf st' raw rem :
  parse_buffer st buf = (st', Ok (Some raw, rem)) ->
  exists start p parsed_data,
    finds buf 0 start p raw rem /\ decode p raw = Ok parsed_data /\
    st' = put st (raw, parsed_data).
Proof using All.
  unfold parse_buffer. intros Hpb.
  destruct (parse_buffer_loop_inv st buf 0)
    as [[_ Hw]|(start & p & raw' & rest & Hf & Ho)]; [congruence|].
  rewrite Hpb in Ho. symmetry in Ho.
  apply outcome_of_Some in Ho as (v & Hdec & -> & -> & ->).
  by exists start, p, v.
Qed.

Lemma ubx_len_bytes f l0 l1 :
  f !! 4 = Some l0 -> f !! 5 = Some l1 ->
  ubx_len f = (byte_val l0 + 256 * byte_val l1)%Z.
Proof.
  intros H4 H5. unfold ubx_len, slice. cbn [Nat.sub].
  rewrite (drop_S _ _ _ H4), (drop_S _ _ _ H5).
  cbn [take]. rewrite take_0.
  unfold int_from_bytes_little. cbn [foldr]. lia.
Qed.

Lemma upper_bits_zero b :
  Z.land (byte_val b) (Z.lnot 3) = 0%Z <-> Z.shiftr (byte_val b) 2 = 0%Z.
Proof. destruct b; vm_compute; split; congruence. Qed.

Lemma rtcm_len_bound b2 b3 :
  Z.land (byte_val b2) (Z.lnot 3) = 0%Z -> (0 <= rtcm_len b2 b3 <= 1023)%Z.
Proof.
  intros Hhi. split; [apply rtcm_len_nonneg|].
  assert (Hlog : forall a, (0 <= a < 1024)%Z -> (a = 0 \/ Z.log2 a < 10)%Z).
  { intros a Ha. destruct (decide (a = 0%Z)) as [->|Hnz]; [by left|right].
    apply Z.log2_lt_pow2; lia. }
  assert (Hb2 : (0 <= byte_val b2 < 4)%Z).
  { apply upper_bits_zero in Hhi. pose proof (byte_val_range b2) as Hr.
    rewrite Z.shiftr_div_pow2 in Hhi by lia.
    change (2 ^ 2)%Z with 4%Z in Hhi.
    pose proof (Z.div_mod (byte_val b2) 4 ltac:(lia)) as Hdm.
    pose proof (Z.mod_pos_bound (byte_val b2) 4 ltac:(lia)). lia. }
  pose proof (byte_val_range b3) as Hb3.
  unfold rtcm_len. rewrite Z.shiftl_mul_pow2 by lia.
  change (2 ^ 8)%Z with 256%Z.
  set (lo := byte_val b3) in *. set (hi := (byte_val b2 * 256)%Z).
  assert (Hhi' : (0 <= hi < 1024)%Z) by (subst hi; lia).
  destruct (decide (Z.lor lo hi = 0%Z)) as [->|Hnz]; [lia|].
  assert (Hpos : (0 < Z.lor lo hi)%Z).
  { pose proof (proj2 (Z.lor_nonneg lo hi) (conj (proj1 Hb3) (proj1 Hhi'))).
    lia. }
  enough (Z.lor lo hi < 2 ^ 10)%Z by lia.
  apply Z.log2_lt_pow2; [done|].
  rewrite Z.log2_lor by lia.
  destruct (Hlog lo ltac:(lia)) as [->|Hl], (Hlog hi Hhi') as [->|Hh];
    cbn; lia.
Qed.

(** C10.  Every successful extraction by [parse_buffer] enqueues a non-empty
    [raw_data] that opens with a recognised sync header (0xB5 0x62, a header
    of the NMEA set, or 0xD3 followed by a byte whose upper six bits are
    zero); [raw_data] is the slice of the buffer at the scan position, the
    returned remainder is the buffer from the scan position plus
    [len(raw_data)] on, and the bytes scanned over before the frame are
    dropped: the queue grows by the pair for [raw_data] alone. *)
Theorem extraction_invariant st buf st' raw rem :
  parse_buffer st buf = (st', Ok (Some raw, rem)) ->
  exists start parsed_data,
    noise_run buf 0 start /\
    raw <> [] /\
    (exists b1 b2,
        take 2 raw = [b1; b2] /\
        ([b1; b2] = UBX_HDR \/ [b1; b2] ∈ NMEA_HDR \/
         (b1 = xd3 /\ Z.land (byte_val b2) (Z.lnot 3) = 0%Z))) /\
    raw = take (length raw) (drop start buf) /\
    rem = drop (start + length raw) buf /\
    buf = take start buf ++ raw ++ rem /\
    _msgqueue st' = _msgqueue st ++ [(raw, parsed_data)].
Proof using All.
  intros (start & p & v & Hf & Hdec & ->)%parse_buffer_Some.
  pose proof (finds_split _ _ _ _ _ _ Hf) as (Hbuf & Hlt & Hlen).
  destruct Hf as (Hrun & Hd & [(b1 & b2 & Htake & _ & Hcl) _]).
  exists start, v. split_and!; try done.
  - intros ->. cbn in Hlen. lia.
  - exists b1, b2. split; [done|]. destruct p.
    + left. by apply classify_UBX.
    + right; left. by apply classify_NMEA in Hcl as [_ ?].
    + right; right. by apply classify_RTCM3 in Hcl as (_ & _ & ? & ?).
  - by rewrite Hd, take_app_length.
  - by rewrite <- drop_drop, Hd, drop_app_length.
Qed.

(** C5.  For an extracted UBX frame the payload length [L] is the unsigned
    little-endian value of bytes 3-4 of the four-byte sub-header (bytes 4 and
    5 of the frame) and the frame takes exactly [2+4+L+2] bytes of the
    buffer; for an extracted NMEA frame it takes 2 plus the number of bytes
    scanned up to and including the first CR LF after the header. *)
Theorem exact_consumption_ubx_nmea st buf st' raw rem :
  parse_buffer st buf = (st', Ok (Some raw, rem)) ->
  exists start,
    noise_run buf 0 start /\ buf = take start buf ++ raw ++ rem /\
    (recognised UBX raw ->
     exists l0 l1,
       raw !! 4 = Some l0 /\ raw !! 5 = Some l1 /\
       let L := Z.to_nat (byte_val l0 + 256 * byte_val l1) in
       length raw = 2 + 4 + L + 2 /\
       length buf = start + (2 + 4 + L + 2) + length rem) /\
    (recognised NMEA raw ->
     exists k,
       first_crlf (drop (start + 2) buf) k /\
       length raw = 2 + k /\
       length buf = start + (2 + k) + length rem).
Proof using All.
  intros (start & p & v & Hf & Hdec & ->)%parse_buffer_Some.
  pose proof (finds_split _ _ _ _ _ _ Hf) as (Hbuf & Hlt & Hlen).
  destruct Hf as (Hrun & Hd & [Hrec Hlay]).
  assert (Hsize : length buf = start + length raw + length rem).
  { apply (f_equal length) in Hd. rewrite length_drop, length_app in Hd. lia. }
  exists start. split_and!; [done|done| |].
  - intros Hu. rewrite (recognised_inj _ _ _ Hrec Hu) in Hlay.
    unfold layout in Hlay.
    destruct (raw !! 4) as [l0|] eqn:H4;
      [|apply lookup_ge_None in H4; lia].
    destruct (raw !! 5) as [l1|] eqn:H5;
      [|apply lookup_ge_None in H5; lia].
    exists l0, l1. rewrite (ubx_len_bytes raw l0 l1) in Hlay by done.
    cbn zeta. split_and!; [done|done|lia|lia].
  - intros Hn. rewrite (recognised_inj _ _ _ Hrec Hn) in Hlay.
    unfold layout in Hlay. exists (length raw - 2).
    split_and!; [|lia|lia].
    replace (drop (start + 2) buf) with (drop 2 (drop start buf))
      by by rewrite drop_drop.
    rewrite Hd, drop_app_le by lia.
    apply first_crlf_app; [|done]. rewrite length_drop. lia.
Qed.

(** C6.  For an extracted RTCM3 frame the payload length is
    [L = byte3 | (sync_byte2 << 8)]; the classification guard (the second
    sync byte has its upper six bits zero) makes it a 10-bit value, at most
    1023, and the frame takes exactly [2+1+L+3] bytes of the buffer. *)
Theorem exact_consumption_rtcm st buf st' raw rem :
  parse_buffer st buf = (st', Ok (Some raw, rem)) ->
  recognised RTCM3 raw ->
  exists start b2 b3,
    noise_run buf 0 start /\ buf = take start buf ++ raw ++ rem /\
    raw !! 1 = Some b2 /\ raw !! 2 = Some b3 /\
    Z.shiftr (byte_val b2) 2 = 0%Z /\
    let L := Z.lor (byte_val b3) (Z.shiftl (byte_val b2) 8) in
    (0 <= L <= 1023)%Z /\ (L < 2 ^ 10)%Z /\
    length raw = 2 + 1 + Z.to_nat L + 3 /\
    length buf = start + (2 + 1 + Z.to_nat L + 3) + length rem.
Proof using All.
  intros (start & p & v & Hf & Hdec & ->)%parse_buffer_Some Hr.
  pose proof (finds_split _ _ _ _ _ _ Hf) as (Hbuf & Hlt & Hlen).
  destruct Hf as (Hrun & Hd & [Hrec Hlay]).
  rewrite (recognised_inj _ _ _ Hrec Hr) in Hlay.
  destruct Hlay as (b2 & b3 & Hb2 & Hb3 & Hsize).
  destruct Hr as (c1 & c2 & [_ Hc2]%take_two_lookup & _ & Hcl).
  rewrite Hb2 in Hc2. injection Hc2 as <-.
  apply classify_RTCM3 in Hcl as (_ & _ & _ & Hguard).
  pose proof (rtcm_len_bound b2 b3 Hguard) as Hbound.
  exists start, b2, b3. fold (rtcm_len b2 b3). cbn zeta.
  apply (f_equal length) in Hd. rewrite length_drop, length_app in Hd.
  change (2 ^ 10)%Z with 1024%Z.
  split_and!; [done|done|done|done|by apply upper_bits_zero|lia..].
Qed.

(** ** Scanning *)

(** C7.  A byte that is no first sync byte moves the cursor on by exactly one;
    after a first sync byte the two-byte header goes, in this order, to the
    UBX slicer when it is exactly the UBX header, else to the NMEA slicer
    when it is in the NMEA header set, else to the RTCM3 slicer when the first
    byte is 0xD3 and the upper six bits of the second are zero; when none
    applies the cursor moves on by exactly two. *)
Theorem scan_step st buf start :
  (forall b, buf !! start = Some b -> nonsync b ->
     try_body buf start = Ok Advance1 /\
     parse_buffer_loop st buf start = parse_buffer_loop st buf (start + 1)) /\
  (forall b1 b2,
     buf !! start = Some b1 -> ~ nonsync b1 -> buf !! (start + 1) = Some b2 ->
     try_body buf start =
       (if bool_decide ([b1; b2] = UBX_HDR) then
          extracted (parse_ubx buf start [b1; b2])
        else if bool_decide ([b1; b2] ∈ NMEA_HDR) then
          extracted (parse_nmea buf start [b1; b2])
        else if bool_decide (b1 = xd3 /\ Z.shiftr (byte_val b2) 2 = 0%Z) then
          extracted (parse_rtcm buf start [b1; b2])
        else Ok Advance2) /\
     (classify b1 b2 = None ->
      try_body buf start = Ok Advance2 /\
      parse_buffer_loop st buf start = parse_buffer_loop st buf (start + 2))).
Proof.
  split.
  - intros b Hb Hn. pose proof (lookup_lt_Some _ _ _ Hb) as Hlt.
    assert (Htb : try_body buf start = Ok Advance1)
      by by rewrite try_body_eq, Hb, bool_decide_eq_true_2.
    split; [done|].
    by rewrite (parse_buffer_loop_eq st buf start), decide_True, Htb.
  - intros b1 b2 Hb1 Hs Hb2. pose proof (lookup_lt_Some _ _ _ Hb1) as Hlt.
    rewrite try_body_eq, Hb1, bool_decide_eq_false_2, Hb2 by done.
    split.
    + unfold classify.
      destruct (decide ([b1; b2] = UBX_HDR));
        [by rewrite !bool_decide_eq_true_2|].
      rewrite !(bool_decide_eq_false_2 ([b1; b2] = UBX_HDR)) by done.
      destruct (decide ([b1; b2] ∈ NMEA_HDR));
        [by rewrite !bool_decide_eq_true_2|].
      rewrite !(bool_decide_eq_false_2 ([b1; b2] ∈ NMEA_HDR)) by done.
      destruct (decide (b1 = xd3 /\ Z.land (byte_val b2) (Z.lnot 3) = 0%Z))
        as [Hg|Hg].
      * rewrite !bool_decide_eq_true_2; [done| |done].
        destruct Hg as [-> Hg]. by apply upper_bits_zero in Hg.
      * rewrite !bool_decide_eq_false_2; [done| |done].
        intros [-> Hg']. apply Hg. by apply upper_bits_zero in Hg'.
    + intros Hcl. rewrite Hcl. split; [done|].
      rewrite (parse_buffer_loop_eq st buf start), decide_True by done.
      by rewrite try_body_eq, Hb1, bool_decide_eq_false_2, Hb2, Hcl.
Qed.

(** ** Buffers without a whole frame *)

Lemma parse_buffer_Raise st buf st' e :
  parse_buffer st buf = (st', Raise e) ->
  exists start p raw rest,
    finds buf 0 start p raw rest /\ decode p raw = Raise e /\
    e <> EOFError /\ st' = st.
Proof using All.
  unfold parse_buffer. intros Hpb.
  destruct (parse_buffer_loop_inv st buf 0)
    as [[_ Hw]|(start & p & raw & rest & Hf & Ho)]; [congruence|].
  rewrite Hpb in Ho. symmetry in Ho.
  apply outcome_of_Raise in Ho as (Hdec & Hne & ->).
  by exists start, p, raw, rest.
Qed.

Lemma drain_waits st buf : waits buf 0 -> drain st buf = (st, Ok buf).
Proof using All.
  intros Hw. rewrite drain_eq. unfold parse_buffer. by rewrite loop_waits.
Qed.

(** C8.  When the buffer holds no whole frame yet, [parse_buffer] puts
    nothing on the queue, raises nothing and returns the buffer as it was:
    this is so whenever it returns no [raw_data], whenever the scan is stuck,
    whenever no frame lies anywhere in the buffer, and in particular for any
    proper prefix of a frame (after noise), after which the missing bytes
    complete exactly one emission.  An exception leaves
    [parse_buffer] only when a whole frame was cut out and its decoder
    raised. *)
Theorem partial_frame_stability st :
  (forall buf st' rem,
     parse_buffer st buf = (st', Ok (None, rem)) -> st' = st /\ rem = buf) /\
  (forall buf, waits buf 0 ->
     parse_buffer st buf = (st, Ok (None, buf)) /\
     drain st buf = (st, Ok buf)) /\
  (forall buf,
     (forall start p raw rest, drop start buf = raw ++ rest -> ~ frame p raw) ->
     parse_buffer st buf = (st, Ok (None, buf))) /\
  (forall noise p f pre suf,
     Forall nonsync noise -> frame p f -> f = pre ++ suf -> suf <> [] ->
     waits (noise ++ pre) 0 /\
     parse_buffer st (noise ++ pre) = (st, Ok (None, noise ++ pre)) /\
     forall v, decode p f = Ok v ->
       drain st ((noise ++ pre) ++ suf) = (put st (f, v), Ok [])) /\
  (forall buf st' e,
     parse_buffer st buf = (st', Raise e) ->
     exists start p raw rest,
       finds buf 0 start p raw rest /\ decode p raw = Raise e).
Proof using All.
  split_and!.
  - intros buf st' rem. apply parse_buffer_None.
  - intros buf Hw. split; [by apply loop_waits|by apply drain_waits].
  - intros buf Hno. apply loop_waits.
    destruct (waits_or_finds buf 0)
      as [Hw|(start & p & raw & rest & _ & Hd & Hf)]; [done|].
    by destruct (Hno start p raw rest).
  - intros noise p f pre suf Hn Hf Heq Hsuf.
    pose proof (waits_partial noise p f pre suf Hn Hf Heq Hsuf) as Hw.
    split_and!; [done|by apply loop_waits|].
    intros v Hv. rewrite <- app_assoc, <- Heq.
    rewrite <- (app_nil_r f) at 1.
    rewrite drain_eq, (parse_buffer_frame st noise p f []) by done.
    unfold outcome_of. rewrite Hv. apply drain_nil.
  - intros buf st' e Hpb.
    apply parse_buffer_Raise in Hpb as (start & p & raw & rest & Hf & Hd & _).
    by exists start, p, raw, rest.
Qed.

(** ** Order of emission *)

Lemma handle_queue st e : _msgqueue (handle st e).1 = _msgqueue st.
Proof. by destruct e. Qed.



(** ** Chunking *)

(** C4.  However the received stream is cut into (non-empty) [recv] results,
    down to one byte at a time, [_read_thread] ends with the same queue, the
    same events and the same residual buffer as when the stream arrives in
    one piece. *)
Theorem chunk_invariance st :
  (forall chunks,
     Forall (fun c => c <> []) chunks -> concat chunks <> [] ->
     _read_thread (Ok <$> chunks) st = _read_thread [Ok (concat chunks)] st) /\
  (forall stream,
     stream <> [] ->
     _read_thread (Ok <$> ((fun b => [b]) <$> stream)) st
     = _read_thread [Ok stream] st).
Proof using All.
  assert (Hgen : forall chunks,
     Forall (fun c => c <> []) chunks -> concat chunks <> [] ->
     _read_thread (Ok <$> chunks) st = _read_thread [Ok (concat chunks)] st).
  { intros chunks Hne Hcat. unfold _read_thread.
    rewrite (read_loop_concat chunks) by (done || apply drain_nil).
    change [Ok (concat chunks)] with (Ok <$> [concat chunks]).
    rewrite (read_loop_concat [concat chunks])
      by (by repeat constructor || apply drain_nil).
    cbn [concat]. by rewrite app_nil_r. }
  split; [done|].
  intros stream Hne.
  assert (Hcat : concat ((fun b => [b]) <$> stream) = stream).
  { induction stream as [|b stream IH]; [done|]. cbn.
    destruct stream; [done|]. by rewrite IH. }
  rewrite <- Hcat at 2. apply Hgen; [|by rewrite Hcat].
  apply Forall_fmap, Forall_true. done.
Qed.

(** ** Noise between frames *)

Lemma noise_run_skipped pre noise tail :
  skipped_noise noise ->
  noise_run (pre ++ noise ++ tail) (length pre) (length pre + length noise).
Proof.
  intros Hn. revert pre.
  induction Hn as [|b noise Hb _ IH|b1 b2 noise Hb1 Hcl _ IH]; intros pre.
  - cbn. rewrite Nat.add_0_r. constructor.
  - eapply noise_one; [by apply list_lookup_middle|done|].
    specialize (IH (pre ++ [b])).
    rewrite <- app_assoc, length_app in IH. cbn in IH. cbn [length].
    by replace (length pre + S (length noise))
      with (length pre + 1 + length noise) by lia.
  - eapply (noise_two _ _ _ b1 b2); [by apply list_lookup_middle| |done|done|].
    + change ((b1 :: b2 :: noise) ++ tail) with ([b1] ++ b2 :: noise ++ tail).
      rewrite app_assoc. apply list_lookup_middle.
      rewrite length_app. cbn. lia.
    + specialize (IH (pre ++ [b1; b2])).
      rewrite <- app_assoc, length_app in IH. cbn in IH. cbn [length].
      by replace (length pre + S (S (length noise)))
        with (length pre + 2 + length noise) by lia.
Qed.

Lemma skipped_noise_nonsync noise : Forall nonsync noise -> skipped_noise noise.
Proof. induction 1; by constructor. Qed.

Lemma parse_buffer_skipped st noise p f rest :
  skipped_noise noise -> frame p f ->
  parse_buffer st (noise ++ f ++ rest)
  = outcome_of st (noise ++ f ++ rest) p f rest.
Proof.
  intros Hn Hf. apply (loop_finds st _ 0 (length noise)).
  split_and!; [by apply (noise_run_skipped [] noise)| |done].
  by rewrite drop_app_length.
Qed.

Lemma drain_tolerated st segs trailing :
  tolerated segs -> skipped_noise trailing ->
  drain st (noisy segs trailing) = expected st segs trailing.
Proof using All.
  intros Hwf Htr. revert st.
  induction Hwf as [|[noise [p f]] segs [Hn Hf] _ IH]; intros st; cbn.
  - apply drain_waits. exists (length trailing). split; [|by apply stall_end].
    pose proof (noise_run_skipped [] trailing [] Htr) as Hrun.
    by rewrite app_nil_l, app_nil_r in Hrun.
  - cbn in Hn, Hf. rewrite drain_eq, (parse_buffer_skipped st noise p f) by done.
    unfold outcome_of. destruct (decode p f) as [v|e]; [by rewrite IH|].
    by destruct e.
Qed.

Lemma tolerated_strip segs :
  tolerated segs -> tolerated ((fun pf => ([], pf)) <$> segs.*2).
Proof.
  unfold tolerated. induction 1 as [|[noise [p f]] segs [_ Hf] _ IH]; cbn.
  - constructor.
  - constructor; [|done]. cbn. split; [constructor|done].
Qed.

(** C3, as the code has it.  Noise that the scan crosses in whole steps
    (single bytes that are not first sync bytes, and pairs of a first sync
    byte with the noise byte after it that match no header), put before,
    between and after complete frames, changes neither the frames [drain]
    enqueues nor their order nor the exception it may end in, and the raw
    data enqueued are the frames themselves, in order: no noise byte is part
    of them. *)
Theorem noise_tolerance st segs trailing :
  tolerated segs -> skipped_noise trailing ->
  (drain st (noisy segs trailing)).1 = (drain st (clean segs.*2)).1 /\
  raised (drain st (noisy segs trailing)).2
  = raised (drain st (clean segs.*2)).2 /\
  exists new,
    _msgqueue (drain st (noisy segs trailing)).1 = _msgqueue st ++ new /\
    new.*1 `prefix_of` segs.*2.*2 /\
    (Forall (fun s => exists v, decode s.2.1 s.2.2 = Ok v) segs ->
     new.*1 = segs.*2.*2 /\
     (drain st (noisy segs trailing)).2 = Ok trailing /\
     (drain st (clean segs.*2)).2 = Ok []).
Proof using All.
  intros Hwf Htr. unfold clean.
  rewrite (drain_tolerated st segs trailing) by done.
  rewrite (drain_tolerated st _ [])
    by (by apply tolerated_strip || constructor).
  destruct (expected_strip st segs trailing) as [Hst Hr].
  split_and!; [done|done|].
  destruct (expected_queue st segs trailing) as (new & Hq & Hpre & Hall).
  exists new. split_and!; [done|done|].
  intros Hok. destruct (Hall Hok) as [Hnew Hres].
  split_and!; [done|done|].
  destruct (expected_queue st ((fun pf => ([], pf)) <$> segs.*2) [])
    as (new' & _ & _ & Hall').
  apply Hall'. apply Forall_fmap, Forall_fmap.
  eapply Forall_impl; [exact Hok|]. by intros [noise [p f]].
Qed.

(** ** Decoder failures *)


(** ** The scenario of the specification *)

Lemma sync_x24 : ~ nonsync x24.
Proof. intros Hn. apply Hn. repeat constructor. Qed.

Lemma sync_xb5 : ~ nonsync xb5.
Proof. intros Hn. apply Hn. repeat constructor. Qed.

Lemma sync_xd3 : ~ nonsync xd3.
Proof. intros Hn. apply Hn. repeat constructor. Qed.

Lemma frame_ubx_scenario ck1 ck2 :
  frame UBX [xb5; x62; x01; x02; x02; x00; xaa; xbb; ck1; ck2].
Proof.
  split.
  - exists xb5, x62. split_and!; [done|apply sync_xb5|by apply classify_UBX].
  - reflexivity.
Qed.

Lemma frame_nmea_scenario h1 h2 body :
  ~ nonsync h1 -> [h1; h2] <> UBX_HDR -> [h1; h2] ∈ NMEA_HDR ->
  first_crlf body (length body) ->
  frame NMEA ([h1; h2] ++ body).
Proof.
  intros Hs Hne Hin Hbody. split.
  - exists h1, h2. split_and!; [done|done|by apply classify_NMEA].
  - unfold layout. change ([h1; h2] ++ body) with (h1 :: h2 :: body).
    change (drop 2 (h1 :: h2 :: body)) with body.
    by replace (length (h1 :: h2 :: body) - 2) with (length body)
      by (cbn [length]; lia).
Qed.

(** C2, as the code has it.  The ten bytes
    [B5 62 01 02 02 00 AA BB ck1 ck2] followed at once by an NMEA sentence
    ["$G...\r\n"], received whole or split after byte 3, give exactly two
    pairs in order: the UBX frame, which takes all ten bytes, then the
    sentence up to and including its CR LF; nothing is left in the buffer. *)
Theorem scenario_two_frames st ck1 ck2 body p1 p2 :
  let ubx := [xb5; x62; x01; x02; x02; x00; xaa; xbb; ck1; ck2] in
  let nmea := [x24; x47] ++ body in
  let whole := ubx ++ nmea in
  let final := put (put st (ubx, p1)) (nmea, p2) in
  [x24; x47] ∈ NMEA_HDR ->
  first_crlf body (length body) ->
  UBXReader_parse ubx = Ok p1 ->
  NMEAReader_parse nmea = Ok p2 ->
  _read_thread [Ok whole] st = (final, Blocked []) /\
  _read_thread [Ok (take 3 whole); Ok (drop 3 whole)] st = (final, Blocked []) /\
  _msgqueue final = _msgqueue st ++ [(ubx, p1); (nmea, p2)] /\
  parse_buffer st whole = (put st (ubx, p1), Ok (Some ubx, nmea)) /\
  length whole - length nmea = 10 /\
  parse_buffer (put st (ubx, p1)) nmea = (final, Ok (Some nmea, [])).
Proof using All.
  intros ubx nmea whole final Hin Hbody Hp1 Hp2.
  assert (Hfu : frame UBX ubx) by apply frame_ubx_scenario.
  assert (Hfn : frame NMEA nmea)
    by (apply frame_nmea_scenario; [apply sync_x24|done|done|done]).
  assert (Hdrain : drain st whole = (final, Ok [])).
  { assert (Hw : whole = noisy [([], (UBX, ubx)); ([], (NMEA, nmea))] [])
      by (cbn [noisy]; by rewrite !app_nil_l, app_nil_r).
    assert (Hwf : well_formed [([], (UBX, ubx)); ([], (NMEA, nmea))])
      by (repeat (constructor; [split; [constructor|done]|]); constructor).
    rewrite Hw, drain_noisy by (done || constructor).
    cbn [expected decode]. by rewrite Hp1, Hp2. }
  assert (Hone : _read_thread [Ok whole] st = (final, Blocked [])).
  { change [Ok whole] with (Ok <$> [whole]). unfold _read_thread.
    rewrite read_loop_concat by (by repeat constructor || apply drain_nil).
    cbn [concat]. by rewrite app_nil_l, app_nil_r, Hdrain. }
  split_and!.
  - done.
  - change [Ok (take 3 whole); Ok (drop 3 whole)]
      with (Ok <$> [take 3 whole; drop 3 whole]).
    unfold _read_thread.
    rewrite read_loop_concat by (by repeat constructor || apply drain_nil).
    cbn [concat]. by rewrite app_nil_l, app_nil_r, take_drop, Hdrain.
  - subst final. cbn. by rewrite <- app_assoc.
  - pose proof (parse_buffer_frame st [] UBX ubx nmea ltac:(constructor) Hfu)
      as Hpb.
    unfold outcome_of in Hpb. cbn [decode] in Hpb. by rewrite Hp1 in Hpb.
  - subst whole. rewrite length_app. cbn [length ubx]. lia.
  - pose proof (parse_buffer_frame (put st (ubx, p1)) [] NMEA nmea []
                  ltac:(constructor) Hfn) as Hpb.
    unfold outcome_of in Hpb. cbn [decode] in Hpb.
    rewrite Hp2, app_nil_l, app_nil_r in Hpb. done.
Qed.
(** * Further properties of the framer *)

(** ** Reads *)

(** Two reads next to each other give the bytes of one read over both ranges,
    and the long read succeeds exactly when both short ones do. *)
Theorem read_bytes_adjacent buf start n1 n2 r :
  _read_bytes buf start (n1 + n2) = Ok r <->
  exists a b,
    _read_bytes buf start n1 = Ok a /\
    _read_bytes buf (start + n1) n2 = Ok b /\
    r = a ++ b /\ length a = n1 /\ length b = n2.
Proof.
  split.
  - intros Hrd. apply _read_bytes_Ok in Hrd as (Hle & -> & _).
    exists (take n1 (drop start buf)), (take n2 (drop (start + n1) buf)).
    rewrite !_read_bytes_take by lia.
    rewrite <- (drop_drop buf n1 start), take_take_drop.
    rewrite !length_take, !length_drop. split_and!; [done|done|done|lia|lia].
  - intros (a & b & Ha & Hb & -> & _ & _).
    apply _read_bytes_Ok in Ha as (Hla & -> & _).
    apply _read_bytes_Ok in Hb as (Hlb & -> & _).
    rewrite _read_bytes_take by lia.
    by rewrite <- (drop_drop buf n1 start), take_take_drop.
Qed.

(** ** The slicers on their own *)

Lemma ubx_len_at buf start :
  slice (take 4 (drop (start + 2) buf)) 2 4 = slice (drop start buf) 4 6.
Proof. by rewrite <- (drop_drop buf 2 start), ubx_len_read. Qed.

(** [parse_ubx] takes the header it is given on trust and reads the length
    from the buffer: with fewer than 6 bytes from the cursor, or fewer than
    [8 + L], it raises [EOFError] whatever the decoder is; otherwise the
    decoder gets the header followed by the [6 + L] bytes behind it. *)
Theorem parse_ubx_behaviour buf start hdr :
  let L := Z.to_nat (ubx_len (drop start buf)) in
  (length buf < start + 6 -> parse_ubx buf start hdr = Raise EOFError) /\
  (start + 6 <= length buf -> length buf < start + 8 + L ->
   parse_ubx buf start hdr = Raise EOFError) /\
  (start + 8 + L <= length buf ->
   let raw_data := hdr ++ take (6 + L) (drop (start + 2) buf) in
   parse_ubx buf start hdr
   = (parsed_data ← UBXReader_parse raw_data; mret (raw_data, parsed_data))).
Proof.
  intros L. unfold parse_ubx.
  assert (Hrest : start + 6 <= length buf ->
            _read_bytes buf (start + 2) 4
            ≫= (fun byten =>
                  more ← _read_bytes buf (start + 6)
                           (Z.to_nat (int_from_bytes_little (slice byten 2 4) + 2));
                  parsed_data ← UBXReader_parse (hdr ++ byten ++ more);
                  mret (hdr ++ byten ++ more, parsed_data))
            = (more ← _read_bytes buf (start + 6) (L + 2);
               parsed_data ← UBXReader_parse
                               (hdr ++ take 4 (drop (start + 2) buf) ++ more);
               mret (hdr ++ take 4 (drop (start + 2) buf) ++ more, parsed_data))).
  { intros Hle. rewrite _read_bytes_take, bind_Ok by lia.
    rewrite ubx_len_at. fold (ubx_len (drop start buf)).
    pose proof (int_from_bytes_little_nonneg (slice (drop start buf) 4 6)) as Hnn.
    fold (ubx_len (drop start buf)) in Hnn.
    by replace (Z.to_nat (ubx_len (drop start buf) + 2)) with (L + 2)
      by (subst L; lia). }
  split_and!.
  - intros Hshort. by rewrite _read_bytes_short by lia.
  - intros Hle Hshort. rewrite Hrest by done.
    by rewrite _read_bytes_short by lia.
  - intros Hfull. cbv zeta. rewrite Hrest by lia.
    rewrite _read_bytes_take, bind_Ok by lia.
    assert (take 4 (drop (start + 2) buf) ++ take (L + 2) (drop (start + 6) buf)
            = take (6 + L) (drop (start + 2) buf)) as ->; [|done].
    replace (start + 6) with (start + 2 + 4) by lia.
    rewrite <- (drop_drop buf 4 (start + 2)), take_take_drop.
    f_equal. lia.
Qed.

(** [parse_rtcm] computes the length from byte 1 of the header it is given and
    the byte behind the header; without the guard of [parse_buffer] it may be
    any 16-bit value.  Short of [6 + L] bytes from the cursor it raises
    [EOFError] whatever the decoder is; otherwise the decoder gets the header
    and the [4 + L] bytes behind it. *)
Theorem parse_rtcm_behaviour buf start hdr h1 :
  hdr !! 1 = Some h1 ->
  (length buf < start + 3 -> parse_rtcm buf start hdr = Raise EOFError) /\
  (forall b3, buf !! (start + 2) = Some b3 ->
     let L := Z.to_nat (rtcm_len h1 b3) in
     (rtcm_len h1 b3 <= 65535)%Z /\
     (length buf < start + 6 + L -> parse_rtcm buf start hdr = Raise EOFError) /\
     (start + 6 + L <= length buf ->
      let raw_data := hdr ++ take (4 + L) (drop (start + 2) buf) in
      parse_rtcm buf start hdr
      = (parsed_data ← RTCMReader_parse raw_data; mret (raw_data, parsed_data)))).
Proof.
  intros Hh1. split.
  - intros Hshort. unfold parse_rtcm. by rewrite _read_bytes_short by lia.
  - intros b3 Hb3. cbv zeta. set (L := Z.to_nat (rtcm_len h1 b3)).
    pose proof (lookup_lt_Some _ _ _ Hb3) as Hlt.
    pose proof (rtcm_len_nonneg h1 b3) as Hnn.
    assert (Heq : parse_rtcm buf start hdr
                  = (byten ← _read_bytes buf (start + 3) (L + 3);
                     parsed_data ← RTCMReader_parse (hdr ++ [b3] ++ byten);
                     mret (hdr ++ [b3] ++ byten, parsed_data))).
    { unfold parse_rtcm. rewrite _read_bytes_one, Hb3, bind_Ok.
      change (index [b3] 0) with (Ok (A:=Z) (byte_val b3)).
      unfold index. rewrite Hh1, !bind_Ok. fold (rtcm_len h1 b3).
      by replace (Z.to_nat (rtcm_len h1 b3 + 3)) with (L + 3)
        by (subst L; lia). }
    rewrite Heq. split_and!.
    + pose proof (byte_val_range h1) as Hr1.
      pose proof (byte_val_range b3) as Hr3.
      unfold rtcm_len. rewrite Z.shiftl_mul_pow2 by lia.
      change (2 ^ 8)%Z with 256%Z.
      set (lo := byte_val b3) in *. set (hi := (byte_val h1 * 256)%Z).
      destruct (decide (Z.lor lo hi = 0%Z)) as [->|Hnz]; [lia|].
      assert (0 <= Z.lor lo hi)%Z by (apply Z.lor_nonneg; subst hi; lia).
      enough (Z.lor lo hi < 2 ^ 16)%Z by lia.
      apply Z.log2_lt_pow2; [lia|]. rewrite Z.log2_lor by (subst hi; lia).
      assert (Hlog : forall a, (0 <= a < 65536)%Z -> (Z.log2 a < 16)%Z).
      { intros a Ha. destruct (decide (a = 0%Z)) as [->|Ha0]; [done|].
        apply Z.log2_lt_pow2; lia. }
      pose proof (Hlog lo ltac:(lia)). pose proof (Hlog hi ltac:(subst hi; lia)).
      lia.
    + intros Hshort. by rewrite _read_bytes_short by lia.
    + intros Hfull. rewrite _read_bytes_take, bind_Ok by lia.
      assert ([b3] ++ take (L + 3) (drop (start + 3) buf)
              = take (4 + L) (drop (start + 2) buf)) as ->; [|done].
      assert ([b3] = take 1 (drop (start + 2) buf)) as ->
        by (by rewrite (drop_S _ _ _ Hb3)).
      replace (start + 3) with (start + 2 + 1) by lia.
      rewrite <- (drop_drop buf 1 (start + 2)), take_take_drop.
      f_equal. lia.
Qed.

(** [parse_nmea] always comes back: with the decoder's answer for the header
    and the bytes up to the first CR LF behind it when there is one, with
    [EOFError] when no count of bytes behind the header ends in CR LF. *)
Theorem parse_nmea_behaviour buf start hdr :
  let body := drop (start + 2) buf in
  (forall k, first_crlf body k ->
     let raw_data := hdr ++ take k body in
     parse_nmea buf start hdr
     = (parsed_data ← NMEAReader_parse raw_data; mret (raw_data, parsed_data))) /\
  ((forall j, j <= length body -> ~ ends_crlf body j) ->
   parse_nmea buf start hdr = Raise EOFError).
Proof using All.
  intros body. unfold parse_nmea.
  destruct (decide (length buf < start + 2)) as [Hshort|Hlong].
  { assert (Hnil : body = []) by (apply drop_ge; lia).
    split.
    - intros k (Hk & He & _). rewrite Hnil in Hk, He. cbn in Hk.
      assert (k = 0) as -> by lia. by vm_compute in He.
    - intros _. rewrite parse_nmea_loop_eq. by rewrite _read_bytes_short by lia. }
  rewrite parse_nmea_loop_drop by lia.
  assert (Hbody : body = drop 2 (drop start buf))
    by (subst body; by rewrite drop_drop).
  destruct (parse_nmea_loop_cases (drop start buf) hdr 1)
    as [[-> Hno]|(k & Hk & ->)].
  { rewrite length_drop. lia. }
  { intros j Hj. assert (j = 0) as -> by lia.
    unfold ends_crlf. by rewrite take_0. }
  - rewrite <- Hbody in Hno. split; [|done].
    intros k (Hk & He & _). by destruct (Hno k).
  - rewrite <- Hbody in *. split.
    + intros k' Hk'. by rewrite (first_crlf_unique _ _ _ Hk' Hk).
    + intros Hno. destruct Hk as (Hle & He & _). by destruct (Hno k).
Qed.

(** ** Sizes *)

Lemma int_from_bytes_little_bound b :
  (int_from_bytes_little b < 256 ^ Z.of_nat (length b))%Z.
Proof.
  induction b as [|x b IH]; [done|].
  cbn [length]. rewrite Nat2Z.inj_succ, Z.pow_succ_r by lia.
  unfold int_from_bytes_little in *. cbn [foldr].
  pose proof (byte_val_range x). lia.
Qed.

Lemma ubx_len_range f : (0 <= ubx_len f <= 65535)%Z.
Proof.
  unfold ubx_len.
  pose proof (int_from_bytes_little_nonneg (slice f 4 6)) as Hlo.
  pose proof (int_from_bytes_little_bound (slice f 4 6)) as Hhi.
  assert (Hlen : length (slice f 4 6) <= 2)
    by (unfold slice; rewrite length_take; lia).
  assert (256 ^ Z.of_nat (length (slice f 4 6)) <= 256 ^ 2)%Z
    by (apply Z.pow_le_mono_r; lia).
  lia.
Qed.

Lemma frame_length p f :
  frame p f ->
  4 <= length f /\
  (p = UBX -> (8 <= Z.of_nat (length f) <= 65543)%Z) /\
  (p = RTCM3 -> 6 <= length f <= 1029).
Proof.
  intros [Hrec Hlay]. pose proof (recognised_length _ _ Hrec) as Hlen2.
  destruct p; unfold layout in Hlay.
  - pose proof (ubx_len_range f). split_and!; [lia|intros _; lia|done].
  - split_and!; [|done|done].
    destruct Hlay as (_ & He & _). unfold ends_crlf in He.
    apply (f_equal length) in He. unfold last_two in He.
    rewrite length_drop, length_take, length_drop in He. cbn in He. lia.
  - destruct Hlay as (b2 & b3 & Hb2 & _ & Hlen).
    destruct Hrec as (c1 & c2 & [_ Hc2]%take_two_lookup & _ & Hcl).
    rewrite Hb2 in Hc2. injection Hc2 as <-.
    apply classify_RTCM3 in Hcl as (_ & _ & _ & Hguard).
    pose proof (rtcm_len_bound b2 b3 Hguard).
    split_and!; [lia|done|intros _; lia].
Qed.

(** A frame [parse_buffer] extracts has at least 4 bytes; a UBX frame has
    between 8 and 65543, an RTCM3 frame between 6 and 1029: the length fields
    bound how far the framer ever has to look ahead for these two. *)
Theorem extracted_frame_size st buf st' raw rem :
  parse_buffer st buf = (st', Ok (Some raw, rem)) ->
  4 <= length raw <= length buf /\
  (recognised UBX raw -> (8 <= Z.of_nat (length raw) <= 65543)%Z) /\
  (recognised RTCM3 raw -> 6 <= length raw <= 1029).
Proof using All.
  intros Hpb. apply parse_buffer_Some in Hpb as (start & p & v & Hf & _ & _).
  pose proof (finds_split _ _ _ _ _ _ Hf) as (Hbuf & _ & _).
  apply (f_equal length) in Hbuf. rewrite !length_app in Hbuf.
  destruct Hf as (_ & _ & Hfr). pose proof Hfr as [Hrec _].
  destruct (frame_length p raw Hfr) as (H4 & Hu & Hr).
  split_and!; [lia|lia| |].
  - intros Hq. apply Hu. by eapply recognised_inj.
  - intros Hq. apply Hr. by eapply recognised_inj.
Qed.

(** ** What a drain leaves behind *)

Lemma in_order_length raws stream residual :
  in_order raws stream residual ->
  sum_list (length <$> raws) + length residual <= length stream /\
  residual `suffix_of` stream.
Proof.
  induction 1 as [s|skipped raw raws s r _ [IHlen IHsuf]]; [done|].
  cbn. rewrite !length_app. split; [lia|].
  destruct IHsuf as [pre ->]. exists (skipped ++ raw ++ pre).
  by rewrite <- !app_assoc.
Qed.

(** The full account of one drain: the new queue items with one read event
    each, every item a frame with the value its decoder returned, the frames
    in stream order, and the bytes kept. *)
Lemma drain_trace st buf :
  exists new residual,
    _msgqueue (drain st buf).1 = _msgqueue st ++ new /\
    events (drain st buf).1 = events st ++ replicate (length new) socket_read /\
    Forall (fun item => exists p, frame p item.1 /\ decode p item.1 = Ok item.2)
           new /\
    in_order new.*1 buf residual /\
    (forall buf', (drain st buf).2 = Ok buf' -> residual = buf').
Proof using All.
  remember (length buf) as m eqn:Hm.
  revert st buf Hm. induction m as [m IH] using lt_wf_ind. intros st buf Hm.
  rewrite (drain_eq st buf).
  destruct (parse_buffer st buf) as [st' [[[raw|] rem]|e]] eqn:Hpb.
  - pose proof (parse_buffer_shrinks _ _ _ _ _ Hpb) as Hlt.
    apply parse_buffer_Some in Hpb as (start & p & v & Hf & Hdec & ->).
    pose proof (finds_split _ _ _ _ _ _ Hf) as (Hbuf & _ & _).
    destruct Hf as (_ & _ & Hfr).
    destruct (IH (length rem) ltac:(lia) (put st (raw, v)) rem eq_refl)
      as (new & residual & Hq & Hev & Hall & Hord & Hres).
    exists ((raw, v) :: new), residual.
    split_and!; [| | |by rewrite Hbuf; constructor|done].
    + rewrite Hq. cbn. by rewrite <- app_assoc.
    + rewrite Hev. cbn. by rewrite <- app_assoc.
    + constructor; [|done]. by exists p.
  - apply parse_buffer_None in Hpb as [-> ->].
    exists [], buf. cbn. rewrite !app_nil_r.
    split_and!; [done|done|constructor|constructor|by intros ? [= ->]].
  - apply parse_buffer_Raise in Hpb as (_ & _ & _ & _ & _ & _ & _ & ->).
    exists [], buf. cbn. rewrite !app_nil_r.
    split_and!; [done|done|constructor|constructor|done].
Qed.

(** Every pair [drain] enqueues is a complete frame of one of the three
    protocols together with what that protocol's decoder returned for exactly
    those bytes, and each pair comes with exactly one [<<socket_read>>]
    event: the consumer is told once per item. *)
Theorem enqueued_pairs_are_decoded_frames st buf :
  exists new,
    _msgqueue (drain st buf).1 = _msgqueue st ++ new /\
    events (drain st buf).1 = events st ++ replicate (length new) socket_read /\
    Forall (fun item => exists p, frame p item.1 /\ decode p item.1 = Ok item.2)
           new.
Proof using All.
  destruct (drain_trace st buf) as (new & residual & Hq & Hev & Hall & _).
  by exists new.
Qed.

(** A drain never enqueues more than one frame per four bytes of buffer, and
    the frames it enqueued plus the bytes it keeps never exceed the buffer it
    was given; what it keeps is a suffix of that buffer. *)
Theorem drain_accounting st buf st' buf' :
  drain st buf = (st', Ok buf') ->
  exists new,
    _msgqueue st' = _msgqueue st ++ new /\
    4 * length new <= length buf /\
    sum_list (length <$> new.*1) + length buf' <= length buf /\
    buf' `suffix_of` buf.
Proof using All.
  intros Hdr.
  destruct (drain_trace st buf) as (new & residual & Hq & _ & Hall & Hord & Hres).
  rewrite Hdr in Hq, Hres. cbn in Hq, Hres.
  rewrite (Hres buf' eq_refl) in Hord.
  apply in_order_length in Hord as [Hlen Hsuf].
  exists new. split_and!; [done| |done|done].
  assert (Hsum : 4 * length new <= sum_list (length <$> new.*1)).
  { clear Hq Hlen. induction Hall as [|[raw v] new (p & Hfr & _) _ IH]; [done|].
    cbn in *. apply frame_length in Hfr as [H4 _]. lia. }
  lia.
Qed.

(** A drained buffer stays drained: [parse_buffer] finds nothing in what a
    drain left, and a second drain without new bytes changes neither the
    queue nor the events nor the buffer. *)
Theorem drain_idempotent st buf st' buf' :
  drain st buf = (st', Ok buf') ->
  parse_buffer st' buf' = (st', Ok (None, buf')) /\
  drain st' buf' = (st', Ok buf').
Proof using All.
  intros Hdr. pose proof (drain_idem _ _ _ _ Hdr) as Hagain.
  split; [|done].
  rewrite drain_eq in Hagain.
  pose proof (parse_buffer_shrinks st' buf') as Hshrink.
  destruct (parse_buffer st' buf') as [st1 [[[raw|] rem]|e]] eqn:Hpb.
  - specialize (Hshrink _ _ _ eq_refl).
    destruct (drain_trace st1 rem) as (new & residual & _ & _ & _ & Hord & Hres).
    rewrite Hagain in Hres. cbn in Hres. rewrite (Hres buf' eq_refl) in Hord.
    apply in_order_length in Hord as [Hlen _]. lia.
  - by apply parse_buffer_None in Hpb as [-> ->].
  - discriminate.
Qed.

(** What [parse_buffer] has decided it does not revise when more bytes
    arrive: a frame extracted from a buffer is extracted again, with the new
    bytes behind the remainder, from any extension of the buffer, and a
    decoder exception is raised again. *)
Theorem extraction_stable_under_append st buf more :
  (forall st' raw rem,
     parse_buffer st buf = (st', Ok (Some raw, rem)) ->
     parse_buffer st (buf ++ more) = (st', Ok (Some raw, rem ++ more))) /\
  (forall st' e,
     parse_buffer st buf = (st', Raise e) ->
     parse_buffer st (buf ++ more) = (st', Raise e)).
Proof using All.
  pose proof (parse_buffer_app st buf more) as Happ.
  split.
  - intros st' raw rem Hpb. by rewrite Hpb in Happ.
  - intros st' e Hpb. by rewrite Hpb in Happ.
Qed.

(** ** Two hazards *)

(** [EOFError] from a decoder is taken for missing data.  The frame is never
    passed over: whatever follows it, [parse_buffer] returns nothing and
    keeps the whole buffer, so draining delivers no later frame and the
    thread only ever accumulates. *)
Theorem decoder_eoferror_blocks_the_stream st noise p f :
  Forall nonsync noise -> frame p f -> decode p f = Raise EOFError ->
  forall rest,
    parse_buffer st (noise ++ f ++ rest) = (st, Ok (None, noise ++ f ++ rest)) /\
    drain st (noise ++ f ++ rest) = (st, Ok (noise ++ f ++ rest)) /\
    forall chunks,
      Forall (fun c => c <> []) chunks ->
      _read_thread (Ok <$> ((noise ++ f) :: chunks)) st
      = (st, Blocked (noise ++ f ++ concat chunks)).
Proof using All.
  intros Hn Hf Hdec.
  assert (Hpb : forall rest,
            parse_buffer st (noise ++ f ++ rest)
            = (st, Ok (None, noise ++ f ++ rest))).
  { intros rest. rewrite (parse_buffer_frame st noise p f rest) by done.
    unfold outcome_of. by rewrite Hdec. }
  assert (Hdr : forall rest,
            drain st (noise ++ f ++ rest) = (st, Ok (noise ++ f ++ rest)))
    by (intros rest; by rewrite drain_eq, Hpb).
  intros rest. split_and!; [done|done|].
  intros chunks Hne. unfold _read_thread.
  rewrite read_loop_concat; [| |apply drain_nil].
  - cbn [concat]. rewrite app_nil_l, <- app_assoc. by rewrite Hdr.
  - constructor; [|done]. intros Hnil.
    apply app_eq_nil in Hnil as [_ ->].
    destruct Hf as [Hrec _]. apply recognised_length in Hrec. cbn in Hrec. lia.
Qed.

(** A first sync byte followed by a byte that makes no header with it takes
    that byte along: both are passed over, so whatever is extracted from
    such a buffer starts at index 2 or later, also when a complete frame
    begins at index 1. *)
Theorem unmatched_sync_byte_skips_two st buf s b st' raw rem :
  buf !! 0 = Some s -> buf !! 1 = Some b ->
  ~ nonsync s -> classify s b = None ->
  parse_buffer st buf = (st', Ok (Some raw, rem)) ->
  exists start, 2 <= start /\ buf = take start buf ++ raw ++ rem.
Proof using All.
  intros Hs Hb Hsync Hcl Hpb.
  apply parse_buffer_Some in Hpb as (start & p & v & Hf & _ & _).
  pose proof (finds_split _ _ _ _ _ _ Hf) as (Hbuf & _ & _).
  exists start. split; [|done].
  destruct Hf as (Hrun & Hd & [(c1 & c2 & Htake & _ & Hcl') _]).
  assert (Hle : forall s0 e, noise_run buf s0 e -> s0 <= e)
    by (induction 1; lia).
  inversion Hrun as [s0 Hs0|s0 e c Hc Hn Hrun'|s0 e d1 d2 Hd1 Hd2 _ _ Hrun']; subst.
  - destruct (drop_app_lookup _ _ _ _ _ _ Hd Htake) as (_ & Hc1 & Hc2).
    change (0 + 1) with 1 in Hc2. rewrite Hs in Hc1. rewrite Hb in Hc2.
    injection Hc1 as <-. injection Hc2 as <-. congruence.
  - rewrite Hs in Hc. injection Hc as <-. done.
  - by apply Hle in Hrun'.
Qed.

(** ** Noise is kept until a frame follows *)

(** Bytes that are not first sync bytes are passed over on every call but
    never removed on their own: as long as only such bytes arrive, nothing is
    enqueued and the buffer holds every byte received. *)
Theorem noise_is_retained st chunks :
  Forall (fun c => c <> []) chunks -> Forall nonsync (concat chunks) ->
  _read_thread (Ok <$> chunks) st = (st, Blocked (concat chunks)).
Proof using All.
  intros Hne Hnoise. unfold _read_thread.
  rewrite read_loop_concat by (done || apply drain_nil).
  rewrite app_nil_l. by rewrite drain_waits by by apply waits_noise.
Qed.

(** ** How the thread ends *)

Lemma read_loop_app chunks tail st buf :
  Forall (fun c => c <> []) chunks ->
  drain st buf = (st, Ok buf) ->
  read_loop ((Ok <$> chunks) ++ tail) st buf =
  match drain st (buf ++ concat chunks) with
  | (st', Ok buf') => read_loop tail st' buf'
  | (st', Raise e) => handle st' e
  end.
Proof using All.
  intros Hne. revert st buf.
  induction Hne as [|c chunks Hc _ IH]; intros st buf Hdr.
  - cbn. by rewrite app_nil_r, Hdr.
  - cbn [fmap list_fmap concat].
    change ((Ok c :: (Ok <$> chunks)) ++ tail)
      with (Ok c :: ((Ok <$> chunks) ++ tail)).
    cbn [read_loop].
    rewrite app_assoc, (drain_app st (buf ++ c)).
    destruct (drain st (buf ++ c)) as [st' [buf'|e]] eqn:Hdc; [|done].
    rewrite bool_decide_eq_false_2 by done.
    apply IH. by eapply drain_idem.
Qed.

(** When [recv] raises after some data, the frames of that data have been
    enqueued before the handler runs, the handler leaves the queue alone, the
    bytes of an unfinished frame are dropped with the thread, and no later
    [recv] result is looked at. *)
Theorem transport_error_after_data st chunks e rest :
  Forall (fun c => c <> []) chunks ->
  _read_thread ((Ok <$> chunks) ++ Raise e :: rest) st =
  match drain st (concat chunks) with
  | (st', Ok _) => handle st' e
  | (st', Raise e') => handle st' e'
  end /\
  _msgqueue (_read_thread ((Ok <$> chunks) ++ Raise e :: rest) st).1
  = _msgqueue (drain st (concat chunks)).1.
Proof using All.
  intros Hne. unfold _read_thread.
  rewrite read_loop_app by (done || apply drain_nil). rewrite app_nil_l.
  destruct (drain st (concat chunks)) as [st' [buf'|e']]; cbn [read_loop];
    (split; [done|apply handle_queue]).
Qed.

(** When [recv] returns no data the loop ends after the frames received so
    far have been enqueued: nothing is reported (no [<<socket_eof>>] event is
    generated, the state is the drain's), and no later [recv] result is
    looked at. *)
Theorem peer_close_ends_silently st chunks rest :
  Forall (fun c => c <> []) chunks ->
  _read_thread ((Ok <$> chunks) ++ Ok [] :: rest) st =
  match drain st (concat chunks) with
  | (st', Ok buf') => (st', Closed buf')
  | (st', Raise e) => handle st' e
  end.
Proof using All.
  intros Hne. unfold _read_thread.
  rewrite read_loop_app by (done || apply drain_nil). rewrite app_nil_l.
  destruct (drain st (concat chunks)) as [st' [buf'|e']] eqn:Hdr; [|done].
  cbn [read_loop]. rewrite app_nil_r, (drain_idem _ _ _ _ Hdr).
  by rewrite bool_decide_eq_true_2.
Qed.

End Framer.

(** * The handler around the framer

    [__init__], [__del__], [connect], [disconnect], [start_read_thread],
    [stop_read_thread], [socket_write], [on_read] and [on_eof] of
    [SocketHandler], as transformers of the handler's attributes.  The socket
    and thread objects, the status constants of [pygpsclient.globals] and the
    message texts of [pygpsclient.strings] come from outside and are
    parameters; calls made on the application are recorded in [calls] and are
    taken to return. *)

(** The text handed to [set_status], [set_connection] or [print]. *)
Inductive message : Type :=
| text (s : String.string)
| endpoint (server : String.string) (port : Z) (suffix : String.string)
    (* f"{server}:{port}" followed by [suffix] *)
| formatted (template : String.string) (err : exn).
    (* [template.format(err)], f"... {err}" *)

#[local] Instance string_eq_dec : EqDecision String.string := String.string_dec.

Section Handler.

Context {parsed socket thread : Type}.

(** [socket.close()] and [socket.sendall(data)]. *)
Variable close : socket -> result unit.
Variable sendall : socket -> bytes -> result unit.

(** [Thread(target=self._read_thread, daemon=True)] and its [start()]. *)
Variable new_thread : thread.
Variable thread_start : thread -> result unit.

(** [CONNECTED_SOCKET] and [DISCONNECTED] of [pygpsclient.globals]. *)
Variable CONNECTED_SOCKET : Z.
Variable DISCONNECTED : Z.

(** [ENDOFFILE] and [SEROPENERROR] of [pygpsclient.strings]. *)
Variable ENDOFFILE : String.string.
Variable SEROPENERROR : String.string.

Inductive call : Type :=
| set_status (msg : message) (color : String.string)
| set_connection (msg : message) (color : String.string)
| reset_map_refresh
| process_data (raw_data : bytes) (parsed_data : parsed)
| sendall_data (data : bytes)
| print (msg : message).

Record handler : Type := Handler {
  _socket : option socket;
  _socket_thread : option thread;
  _server : option String.string;
  _port : option Z;
  _protocol : option String.string;
  _connected : bool;
  _reading : bool;
  io : app parsed;          (* [_msgqueue] and the events generated *)
  conn_status : Z;          (* [app.conn_status] *)
  calls : list call
}.

Definition with_socket (s : option socket) (h : handler) : handler :=
  Handler s (_socket_thread h) (_server h) (_port h) (_protocol h)
    (_connected h) (_reading h) (io h) (conn_status h) (calls h).

Definition with_socket_thread (t : option thread) (h : handler) : handler :=
  Handler (_socket h) t (_server h) (_port h) (_protocol h)
    (_connected h) (_reading h) (io h) (conn_status h) (calls h).

Definition with_settings (server : String.string) (port : Z) (protocol : String.string)
    (h : handler) : handler :=
  Handler (_socket h) (_socket_thread h) (Some server) (Some port)
    (Some protocol) (_connected h) (_reading h) (io h) (conn_status h)
    (calls h).

Definition with_connected (b : bool) (h : handler) : handler :=
  Handler (_socket h) (_socket_thread h) (_server h) (_port h) (_protocol h)
    b (_reading h) (io h) (conn_status h) (calls h).

Definition with_reading (b : bool) (h : handler) : handler :=
  Handler (_socket h) (_socket_thread h) (_server h) (_port h) (_protocol h)
    (_connected h) b (io h) (conn_status h) (calls h).

Definition with_io (st : app parsed) (h : handler) : handler :=
  Handler (_socket h) (_socket_thread h) (_server h) (_port h) (_protocol h)
    (_connected h) (_reading h) st (conn_status h) (calls h).

Definition with_conn_status (c : Z) (h : handler) : handler :=
  Handler (_socket h) (_socket_thread h) (_server h) (_port h) (_protocol h)
    (_connected h) (_reading h) (io h) c (calls h).

Definition called (c : call) (h : handler) : handler :=
  Handler (_socket h) (_socket_thread h) (_server h) (_port h) (_protocol h)
    (_connected h) (_reading h) (io h) (conn_status h) (calls h ++ [c]).

(** [__init__] (lines 38-55); [status] is the application's [conn_status] at
    that time. *)
Definition __init__ (status : Z) : handler :=
  Handler None None None None None false false (App [] []) status [].

(** [stop_read_thread] (lines 174-181). *)
Definition stop_read_thread (h : handler) : handler :=
  match _socket_thread h with
  | Some _ => with_socket_thread None (with_reading false h)
  | None => h
  end.

(** [start_read_thread] (lines 163-172): the thread object is stored before
    it is started, so it stays stored when [start()] raises. *)
Definition start_read_thread (h : handler) : handler * result unit :=
  if _connected h then
    let h := with_reading true h in
    let h := called reset_map_refresh h in
    let h := with_socket_thread (Some new_thread) h in
    (h, thread_start new_thread)
  else (h, Ok tt).

(** [disconnect] (lines 93-108): whatever the [try] block raises is dropped;
    closing a socket that is [None] raises [AttributeError] there. *)
Definition disconnect (h : handler) : handler :=
  let h :=
    if _connected h then
      let h := stop_read_thread h in
      match _socket h with
      | None => h
      | Some s =>
          match close s with
          | Ok _ => with_reading false (with_socket None h)
          | Raise _ => h
          end
      end
    else h in
  with_conn_status DISCONNECTED (with_connected false h).

(** [connect] (lines 67-91) with the settings read from the application. *)
Definition connect (server : String.string) (port : Z) (protocol : String.string)
    (h : handler) : handler :=
  let h := with_settings server port protocol h in
  if bool_decide (server = ""%string) || bool_decide (port = 0%Z) then
    called (set_status (text "ERROR - please enter valid server and port"%string) "red"%string) h
  else
    let h := with_conn_status CONNECTED_SOCKET h in
    let h := called (set_connection (endpoint server port ""%string) "green"%string) h in
    let h := with_connected true h in
    match start_read_thread h with
    | (h, Ok _) => called (set_status (text "Connected"%string) "blue"%string) h
    | (h, Raise err) =>
        let h := with_connected false h in
        let h := with_conn_status DISCONNECTED h in
        let h := called (set_connection (endpoint server port " "%string) "red"%string) h in
        called (set_status (formatted SEROPENERROR err) "red"%string) h
    end.

(** [__del__] (lines 57-65). *)
Definition __del__ (h : handler) : handler :=
  match _socket_thread h with
  | Some _ => disconnect (with_socket_thread None (with_reading false h))
  | None => h
  end.

(** [socket_write] (lines 150-161). *)
Definition socket_write (data : bytes) (h : handler) : handler :=
  if _connected h then
    match _socket h with
    | Some s =>
        let h := called (sendall_data data) h in
        match sendall s data with
        | Ok _ => h
        | Raise err => called (print (formatted "Error writing to socket "%string err)) h
        end
    | None => h
    end
  else h.

(** [on_read] (lines 183-194).  [Queue.get()] blocks while the queue is
    empty: [None].  The items of the queue are pairs put by [parse_buffer],
    whose [raw_data] is never [None]. *)
Definition on_read (h : handler) : option handler :=
  if _reading h && bool_decide (is_Some (_socket h)) then
    match _msgqueue (io h) with
    | [] => None
    | (raw_data, parsed_data) :: rest =>
        Some (called (process_data raw_data parsed_data)
                (with_io (App rest (events (io h))) h))
    end
  else Some h.

(** [on_eof] (lines 196-206). *)
Definition on_eof (h : handler) : handler :=
  let h := disconnect h in
  let h := with_conn_status DISCONNECTED h in
  called (set_status (text ENDOFFILE) "blue"%string) h.

(** [on_read] once for each of [n] read events, stopping where it blocks. *)
Fixpoint on_reads (n : nat) (h : handler) : option handler :=
  match n with
  | 0 => Some h
  | S n => h' ← on_read h; on_reads n h'
  end.

(** ** Connecting and disconnecting *)

(** [disconnect] always leaves the handler not connected, with the status
    [DISCONNECTED], and the queue as it was; it clears the thread attribute of
    a connected handler, clears [_reading] when a thread was registered or the
    socket closed without error, keeps the socket object when [close()] raised,
    and a second [disconnect] changes nothing. *)
Theorem disconnect_resets h :
  _connected (disconnect h) = false /\
  conn_status (disconnect h) = DISCONNECTED /\
  io (disconnect h) = io h /\
  (_connected h = true -> _socket_thread (disconnect h) = None) /\
  (_connected h = true ->
   is_Some (_socket_thread h) \/ (exists s, _socket h = Some s /\ close s = Ok tt) ->
   _reading (disconnect h) = false) /\
  (_connected h = true ->
   forall s e, _socket h = Some s -> close s = Raise e ->
   _socket (disconnect h) = Some s) /\
  disconnect (disconnect h) = disconnect h.
Proof.
  destruct h as [so th sv po pr co re st cs cl].
  unfold disconnect, stop_read_thread. cbn.
  destruct co; cbn.
  - destruct th as [t|]; cbn.
    + destruct so as [s|]; cbn; [destruct (close s) as [[]|e] eqn:Hcl|]; cbn;
        (split_and!; try done; try congruence).
    + destruct so as [s|]; cbn; [destruct (close s) as [[]|e] eqn:Hcl|]; cbn;
        split_and!; try done; try congruence.
      * intros _ [[t Ht]|(s' & [= <-] & Hs')]; [done|congruence].
      * intros _ [[t Ht]|(s' & Hs' & _)]; done.
  - split_and!; done.
Qed.

(** [connect] stores the server, port and protocol it is given in every
    case.  With an empty server or port 0 it then issues one status message
    and changes nothing else.  Otherwise it announces the connection, sets
    [_reading] and registers the thread; when the thread starts the handler
    ends connected with status [CONNECTED_SOCKET] and the message
    "Connected"; when starting it raises, the handler is reset to not
    connected and [DISCONNECTED] and the error is reported, but [_reading]
    and the thread attribute are left set.  Neither the socket nor the queue
    changes. *)
Theorem connect_outcomes server port protocol h :
  let h' := connect server port protocol h in
  (_server h' = Some server /\ _port h' = Some port /\
   _protocol h' = Some protocol /\ io h' = io h /\ _socket h' = _socket h) /\
  (server = ""%string \/ port = 0%Z ->
   h' = called (set_status (text "ERROR - please enter valid server and port"%string) "red"%string)
          (with_settings server port protocol h)) /\
  (server <> ""%string -> port <> 0%Z ->
   _reading h' = true /\ _socket_thread h' = Some new_thread /\
   match thread_start new_thread with
   | Ok _ =>
       _connected h' = true /\ conn_status h' = CONNECTED_SOCKET /\
       calls h' = calls h ++
         [set_connection (endpoint server port ""%string) "green"%string;
          reset_map_refresh;
          set_status (text "Connected"%string) "blue"%string]
   | Raise err =>
       _connected h' = false /\ conn_status h' = DISCONNECTED /\
       calls h' = calls h ++
         [set_connection (endpoint server port ""%string) "green"%string;
          reset_map_refresh;
          set_connection (endpoint server port " "%string) "red"%string;
          set_status (formatted SEROPENERROR err) "red"%string]
   end).
Proof.
  cbv zeta. unfold connect. split; [|split].
  - destruct (bool_decide (server = ""%string) || bool_decide (port = 0%Z));
      [done|].
    unfold start_read_thread. cbn.
    by destruct (thread_start new_thread) as [[]|e].
  - intros [->| ->].
    + by rewrite (bool_decide_eq_true_2 (_ = ""%string)).
    + rewrite (bool_decide_eq_true_2 (0%Z = 0%Z)) by done.
      by rewrite orb_true_r.
  - intros Hs Hp.
    rewrite !bool_decide_eq_false_2 by done. cbn [orb].
    unfold start_read_thread. cbn.
    destruct (thread_start new_thread) as [[]|e]; cbn;
      by rewrite <- ?app_assoc.
Qed.

(** Disconnecting after a [connect] that started its thread brings the
    flags back: not connected, not reading, no thread registered, status
    [DISCONNECTED], whether or not the thread has opened the socket yet and
    whatever [close()] does; the queue is not touched.  After a [connect]
    whose thread did not start, [disconnect] has nothing to undo for a
    handler that is not connected: [_reading] and the thread attribute stay
    set. *)
Theorem connect_then_disconnect server port protocol h :
  server <> ""%string -> port <> 0%Z ->
  let h' := disconnect (connect server port protocol h) in
  _connected h' = false /\ conn_status h' = DISCONNECTED /\ io h' = io h /\
  match thread_start new_thread with
  | Ok _ => _reading h' = false /\ _socket_thread h' = None
  | Raise _ => _reading h' = true /\ _socket_thread h' = Some new_thread
  end.
Proof.
  intros Hs Hp. cbv zeta. unfold connect.
  rewrite !bool_decide_eq_false_2 by done. cbn [orb].
  unfold start_read_thread. cbn.
  destruct (thread_start new_thread) as [[]|e]; cbn.
  - unfold disconnect, stop_read_thread. cbn.
    destruct (_socket h) as [s|]; [destruct (close s)|]; cbn; done.
  - unfold disconnect. cbn. done.
Qed.

(** ** Reading the queue *)

Lemma on_reads_queue h s :
  _reading h = true -> _socket h = Some s ->
  on_reads (length (_msgqueue (io h))) h
  = Some (Handler (_socket h) (_socket_thread h) (_server h) (_port h)
            (_protocol h) (_connected h) (_reading h)
            (App [] (events (io h))) (conn_status h)
            (calls h ++ ((fun item => process_data item.1 item.2)
                           <$> _msgqueue (io h)))).
Proof.
  destruct h as [so th sv po pr co re [q ev] cs cl]. cbn.
  intros -> ->. revert cl.
  induction q as [|[raw v] q IH]; intros cl; cbn.
  - by rewrite app_nil_r.
  - unfold called, with_io. cbn. rewrite IH. by rewrite <- app_assoc.
Qed.

(** While the handler is reading and has its socket, one [on_read] for each
    queued item hands the items to [process_data] in queue order, each once,
    and leaves the queue empty; one [on_read] more would block in
    [Queue.get()]. *)
Theorem on_read_consumes_in_order h s :
  _reading h = true -> _socket h = Some s ->
  exists h',
    on_reads (length (_msgqueue (io h))) h = Some h' /\
    _msgqueue (io h') = [] /\
    calls h'
    = calls h ++ ((fun item => process_data item.1 item.2) <$> _msgqueue (io h)) /\
    on_read h' = None.
Proof.
  intros Hre Hso. rewrite (on_reads_queue h s Hre Hso).
  eexists. split; [done|]. split_and!; [done|done|].
  unfold on_read. cbn. rewrite Hre, Hso.
  by rewrite (bool_decide_eq_true_2 (is_Some (Some s))) by eauto.
Qed.

(** [on_read] does nothing, and takes nothing from the queue, once the
    handler is no longer reading or has no socket: what is still queued when
    a connected handler with a registered thread is disconnected is never
    handed to the application by later read events. *)
Theorem on_read_after_disconnect h n :
  _connected h = true -> is_Some (_socket_thread h) ->
  on_reads n (disconnect h) = Some (disconnect h) /\
  _msgqueue (io (disconnect h)) = _msgqueue (io h).
Proof.
  destruct h as [so th sv po pr co re st cs cl].
  intros Hco [t Hth]. cbn in Hco, Hth. subst co th.
  assert (Hre : _reading (disconnect (Handler so (Some t) sv po pr true re st cs cl))
                = false /\
                io (disconnect (Handler so (Some t) sv po pr true re st cs cl)) = st).
  { unfold disconnect, stop_read_thread. cbn.
    destruct so as [s|]; [destruct (close s)|]; cbn; done. }
  destruct Hre as [Hre Hio]. split; [|by rewrite Hio].
  set (d := disconnect _) in *. clearbody d.
  assert (Hone : on_read d = Some d) by (unfold on_read; by rewrite Hre).
  induction n as [|n IH]; [done|]. cbn. by rewrite Hone.
Qed.

(** On a connected handler whose thread is registered the destructor does
    what [disconnect] does. *)
Theorem del_is_disconnect h :
  _connected h = true -> is_Some (_socket_thread h) ->
  __del__ h = disconnect h.
Proof.
  destruct h as [so th sv po pr co re st cs cl]. cbn.
  intros -> [t ->]. unfold __del__, disconnect, stop_read_thread. cbn.
  destruct so as [s|]; [destruct (close s)|]; done.
Qed.

(** [socket_write] does nothing at all unless the handler is connected and
    has a socket.  Then it calls [sendall] with the data, once; when
    [sendall] returns that call is all it does, and when [sendall] raises
    the exception ends in one [print] of "Error writing to socket" with the
    error.  In no case does a flag, the socket, the thread attribute, the
    status or the queue change. *)
Theorem socket_write_effects data h :
  let h' := socket_write data h in
  (_connected h' = _connected h /\ _reading h' = _reading h /\
   _socket h' = _socket h /\ _socket_thread h' = _socket_thread h /\
   io h' = io h /\ conn_status h' = conn_status h) /\
  (_connected h = false \/ _socket h = None -> h' = h) /\
  (forall s, _connected h = true -> _socket h = Some s ->
     match sendall s data with
     | Ok _ => calls h' = calls h ++ [sendall_data data]
     | Raise err =>
         calls h' = calls h ++
           [sendall_data data;
            print (formatted "Error writing to socket "%string err)]
     end) /\
  (sendall_data data ∈ drop (length (calls h)) (calls h') <->
   _connected h = true /\ is_Some (_socket h)).
Proof.
  destruct h as [so th sv po pr co re st cs cl]. unfold socket_write. cbn.
  assert (Hsent : forall tail,
            sendall_data data ∈ drop (length cl) (cl ++ sendall_data data :: tail))
    by (intros tail; rewrite drop_app_length; constructor).
  split; [|split; [|split]].
  - destruct co; cbn; [destruct so as [s|]; cbn;
                       [destruct (sendall s data) as [[]|e]; cbn|]|]; done.
  - intros [->| ->]; [done|]. by destruct co.
  - intros s -> [= ->]. cbn.
    destruct (sendall s data) as [[]|e]; cbn; by rewrite <- ?app_assoc.
  - destruct co; cbn; [destruct so as [s|]; cbn;
                       [destruct (sendall s data) as [[]|e]; cbn|]|].
    all: rewrite <- ?app_assoc, ?drop_all.
    all: split.
    all: try (intros _; apply Hsent).
    all: try (by intros ?%elem_of_nil).
    all: try (by intros [_ [? [=]]]).
    all: try (by intros [[=] _]).
    all: eauto.
Qed.

End Handler.

(** ** From the reading thread to the application *)

Section Consumer.

Context {parsed socket thread : Type}.
Variable NMEA_HDR : list bytes.
Variable UBXReader_parse : bytes -> result parsed.
Variable NMEAReader_parse : bytes -> result parsed.
Variable RTCMReader_parse : bytes -> result parsed.

(** Starting from an empty queue, one [on_read] for each [<<socket_read>>]
    event of a drain hands exactly the frames of that drain to
    [process_data], one call per frame and nothing else.  The calls come in
    stream order: the frames handed over lie in the drained buffer one after
    the other, without overlap, in the order of the calls, and what follows
    the last of them holds the bytes the drain keeps.  Each frame comes with
    the value its decoder returned; none of the calls blocks and the queue
    is empty again afterwards. *)
Theorem frames_reach_process_data_in_order
    (h : @handler parsed socket thread) s buf :
  _reading h = true -> _socket h = Some s -> _msgqueue (io h) = [] ->
  let d :=
    drain NMEA_HDR UBXReader_parse NMEAReader_parse RTCMReader_parse
      (io h) buf in
  exists new residual h',
    events d.1 = events (io h) ++ replicate (length new) socket_read /\
    on_reads (length new) (with_io d.1 h) = Some h' /\
    calls h' = calls h ++ ((fun item => process_data item.1 item.2) <$> new) /\
    in_order new.*1 buf residual /\
    (forall buf', d.2 = Ok buf' -> residual = buf') /\
    _msgqueue (io h') = [] /\
    Forall (fun item =>
              exists p, frame NMEA_HDR p item.1 /\
                        decode UBXReader_parse NMEAReader_parse
                          RTCMReader_parse p item.1 = Ok item.2) new.
Proof.
  intros Hre Hso Hq. cbv zeta.
  destruct (drain_trace NMEA_HDR UBXReader_parse NMEAReader_parse
              RTCMReader_parse (io h) buf)
    as (new & residual & Hnew & Hev & Hall & Hord & Hres).
  rewrite Hq, app_nil_l in Hnew.
  set (d := drain NMEA_HDR UBXReader_parse NMEAReader_parse
              RTCMReader_parse (io h) buf) in *.
  pose proof (on_reads_queue (with_io d.1 h) s) as Hrun.
  cbn in Hrun. rewrite Hnew in Hrun. specialize (Hrun Hre Hso).
  eexists new, residual, _.
  split_and!; [done|exact Hrun|done|done|done|done|done].
Qed.

End Consumer.

(** * Concrete runs

    The decoders and the NMEA header list belong to pyubx2, pynmeagps and
    pyrtcm.  For concrete runs the header list is pyubx2's ("$G" and "$P"),
    the UBX decoder is one that checks the Fletcher checksum of the frame and
    raises [UBXParseError] when it is wrong, and the other two accept what
    they are given. *)
Module Scenario.

Definition NMEA_HDR : list bytes := [[x24; x47]; [x24; x50]].

Definition fletcher (b : bytes) : Z * Z :=
  foldl (fun ck x =>
           let a := ((ck.1 + byte_val x) mod 256)%Z in
           (a, ((ck.2 + a) mod 256)%Z))
        (0%Z, 0%Z) b.

Definition UBXReader_parse (raw : bytes) : result bytes :=
  let body := slice raw 2 (length raw - 2) in
  let ck := fletcher body in
  if bool_decide (byte_val <$> last_two raw = [ck.1; ck.2]) then Ok body
  else Raise UBXParseError.

Definition NMEAReader_parse (raw : bytes) : result bytes := Ok raw.

Definition RTCMReader_parse (raw : bytes) : result bytes := Ok raw.

Definition run_parse : app bytes -> bytes -> app bytes * result (option bytes * bytes) :=
  parse_buffer NMEA_HDR UBXReader_parse NMEAReader_parse RTCMReader_parse.

Definition run_drain : app bytes -> bytes -> app bytes * result bytes :=
  drain NMEA_HDR UBXReader_parse NMEAReader_parse RTCMReader_parse.

Definition run_thread : list (result bytes) -> app bytes -> app bytes * thread_end :=
  _read_thread NMEA_HDR UBXReader_parse NMEAReader_parse RTCMReader_parse.

(** An empty queue and no events. *)
Definition st0 : app bytes := App [] [].

(** [B5 62 01 02 02 00 AA BB] with its checksum [6A 27]. *)
Definition ubx_ok : bytes := [xb5; x62; x01; x02; x02; x00; xaa; xbb; x6a; x27].


(** ["$GPGGA,...*hh\r\n"]. *)
Definition gga : bytes :=
  [x24; x47; x50; x47; x47; x41; x2c; x2e; x2e; x2e; x2a; x68; x68; x0d; x0a].

(** [D3 00 02], a payload of two bytes and three bytes of CRC. *)
Definition rtcm : bytes := [xd3; x00; x02; x01; x02; x03; x04; x05].

Lemma nonsync_x00 : nonsync x00.
Proof. apply (bool_decide_unpack _). by vm_compute. Qed.

Lemma nonsync_x01 : nonsync x01.
Proof. apply (bool_decide_unpack _). by vm_compute. Qed.

Lemma frame_ubx_ok : frame NMEA_HDR UBX ubx_ok.
Proof. apply frame_ubx_scenario. Qed.


Lemma gga_body_crlf : first_crlf (drop 2 gga) (length (drop 2 gga)).
Proof.
  split_and!; [done|reflexivity|].
  intros j Hj. unfold ends_crlf.
  do 13 (destruct j as [|j]; [by vm_compute|]).
  cbn in Hj. lia.
Qed.

Lemma frame_gga : frame NMEA_HDR NMEA gga.
Proof.
  apply (frame_nmea_scenario NMEA_HDR x24 x47 (drop 2 gga)).
  - apply sync_x24.
  - done.
  - repeat constructor.
  - apply gga_body_crlf.
Qed.

Lemma recognised_rtcm : recognised NMEA_HDR RTCM3 rtcm.
Proof. exists xd3, x00. split_and!; [done|apply sync_xd3|reflexivity]. Qed.

(** A byte of noise, the UBX frame and the sentence. *)
Definition buf1 : bytes := x00 :: ubx_ok ++ gga.

Definition st1 : app bytes := put st0 (ubx_ok, [x01; x02; x02; x00; xaa; xbb]).

Lemma run_parse_buf1 : run_parse st0 buf1 = (st1, Ok (Some ubx_ok, gga)).
Proof. by vm_compute. Qed.

Lemma extraction_invariant_witness :
  run_parse st0 buf1 = (st1, Ok (Some ubx_ok, gga)) /\
  exists start,
    noise_run NMEA_HDR buf1 0 start /\
    gga = drop (start + length ubx_ok) buf1 /\
    _msgqueue st1 = _msgqueue st0 ++ [(ubx_ok, [x01; x02; x02; x00; xaa; xbb])].
Proof.
  split; [apply run_parse_buf1|].
  destruct (extraction_invariant NMEA_HDR UBXReader_parse NMEAReader_parse
              RTCMReader_parse st0 buf1 st1 ubx_ok gga run_parse_buf1)
    as (start & v & Hrun & _ & _ & _ & Hrem & _ & Hq).
  exists start. split_and!; [exact Hrun|exact Hrem|reflexivity].
Defined.

Lemma exact_consumption_ubx_nmea_witness :
  run_parse st0 buf1 = (st1, Ok (Some ubx_ok, gga)) /\
  exists start,
    noise_run NMEA_HDR buf1 0 start /\
    buf1 = take start buf1 ++ ubx_ok ++ gga.
Proof.
  split; [apply run_parse_buf1|].
  destruct (exact_consumption_ubx_nmea NMEA_HDR UBXReader_parse
              NMEAReader_parse RTCMReader_parse st0 buf1 st1 ubx_ok gga
              run_parse_buf1)
    as (start & Hrun & Hbuf & _).
  exists start. split; [exact Hrun|exact Hbuf].
Defined.

Definition buf2 : bytes := x00 :: x01 :: rtcm ++ [x00].

Lemma run_parse_buf2 :
  run_parse st0 buf2 = (put st0 (rtcm, rtcm), Ok (Some rtcm, [x00])).
Proof. by vm_compute. Qed.

Lemma exact_consumption_rtcm_witness :
  run_parse st0 buf2 = (put st0 (rtcm, rtcm), Ok (Some rtcm, [x00])) /\
  recognised NMEA_HDR RTCM3 rtcm /\
  exists start b2 b3,
    rtcm !! 1 = Some b2 /\ rtcm !! 2 = Some b3 /\
    length buf2
    = start + (2 + 1 + Z.to_nat (Z.lor (byte_val b3) (Z.shiftl (byte_val b2) 8)) + 3)
      + length [x00].
Proof.
  split; [apply run_parse_buf2|]. split; [apply recognised_rtcm|].
  destruct (exact_consumption_rtcm NMEA_HDR UBXReader_parse NMEAReader_parse
              RTCMReader_parse st0 buf2 _ rtcm [x00] run_parse_buf2
              recognised_rtcm)
    as (start & b2 & b3 & _ & _ & Hb2 & Hb3 & _ & _ & _ & _ & Hlen).
  exists start, b2, b3. split_and!; [exact Hb2|exact Hb3|exact Hlen].
Defined.

Lemma scan_step_witness :
  try_body NMEA_HDR UBXReader_parse NMEAReader_parse RTCMReader_parse buf1 0
  = Ok Advance1 /\
  parse_buffer_loop NMEA_HDR UBXReader_parse NMEAReader_parse RTCMReader_parse
    st0 buf1 0
  = parse_buffer_loop NMEA_HDR UBXReader_parse NMEAReader_parse
      RTCMReader_parse st0 buf1 (0 + 1).
Proof.
  destruct (scan_step NMEA_HDR UBXReader_parse NMEAReader_parse
              RTCMReader_parse st0 buf1 0) as [Hone _].
  apply (Hone x00); [reflexivity|apply nonsync_x00].
Defined.

Lemma partial_frame_stability_witness :
  waits NMEA_HDR ([x00] ++ removelast ubx_ok) 0 /\
  run_parse st0 ([x00] ++ removelast ubx_ok)
  = (st0, Ok (None, [x00] ++ removelast ubx_ok)) /\
  run_drain st0 (([x00] ++ removelast ubx_ok) ++ [x27]) = (st1, Ok []).
Proof.
  destruct (partial_frame_stability NMEA_HDR UBXReader_parse NMEAReader_parse
              RTCMReader_parse st0) as (_ & _ & _ & Hpart & _).
  destruct (Hpart [x00] UBX ubx_ok (removelast ubx_ok) [x27])
    as (Hw & Hpb & Hfin).
  - repeat constructor. apply nonsync_x00.
  - apply frame_ubx_ok.
  - reflexivity.
  - discriminate.
  - split_and!; [exact Hw|exact Hpb|]. apply Hfin. reflexivity.
Defined.


Lemma chunk_invariance_witness :
  run_thread (Ok <$> [take 3 buf1; drop 3 buf1]) st0
  = run_thread [Ok (concat [take 3 buf1; drop 3 buf1])] st0.
Proof.
  destruct (chunk_invariance NMEA_HDR UBXReader_parse NMEAReader_parse
              RTCMReader_parse st0) as [Hgen _].
  apply Hgen; [by repeat constructor|discriminate].
Defined.

Definition segs1 : list (bytes * (protocol * bytes)) :=
  [([x00; xb5; x01], (UBX, ubx_ok)); ([x24; x24], (NMEA, gga))].

Lemma tolerated_segs1 : tolerated NMEA_HDR segs1.
Proof.
  repeat constructor; cbn;
    first [apply nonsync_x00|apply sync_xb5|apply sync_x24
          |apply frame_ubx_ok|apply frame_gga].
Qed.

Lemma noise_tolerance_witness :
  (run_drain st0 (noisy segs1 [x01])).1 = (run_drain st0 (clean segs1.*2)).1 /\
  raised (run_drain st0 (noisy segs1 [x01])).2
  = raised (run_drain st0 (clean segs1.*2)).2.
Proof.
  destruct (noise_tolerance NMEA_HDR UBXReader_parse NMEAReader_parse
              RTCMReader_parse st0 segs1 [x01]) as (Hst & Hr & _).
  - apply tolerated_segs1.
  - repeat constructor. apply nonsync_x01.
  - split; [exact Hst|exact Hr].
Defined.


Lemma scenario_two_frames_witness :
  run_thread [Ok (ubx_ok ++ gga)] st0
  = (put st1 (gga, gga), Blocked []) /\
  run_thread [Ok (take 3 (ubx_ok ++ gga)); Ok (drop 3 (ubx_ok ++ gga))] st0
  = (put st1 (gga, gga), Blocked []) /\
  length (ubx_ok ++ gga) - length gga = 10.
Proof.
  destruct (scenario_two_frames NMEA_HDR UBXReader_parse NMEAReader_parse
              RTCMReader_parse st0 x6a x27 (drop 2 gga)
              [x01; x02; x02; x00; xaa; xbb] gga)
    as (Hone & Htwo & _ & _ & Hten & _).
  - repeat constructor.
  - apply gga_body_crlf.
  - reflexivity.
  - reflexivity.
  - split_and!; [exact Hone|exact Htwo|exact Hten].
Defined.

(** A lone first sync byte is not noise in the sense above: the byte after
    it is taken for the second header byte, so a "$" right before the UBX
    frame costs that frame; only the sentence behind it is delivered. *)
Lemma lone_sync_byte_costs_a_frame :
  run_drain st0 ([x24] ++ ubx_ok ++ gga) = (put st0 (gga, gga), Ok []).
Proof. by vm_compute. Qed.

(** Three complete frames with the single byte 0xB5 between the first two. *)
Definition segs2 : list (bytes * (protocol * bytes)) :=
  [([], (UBX, ubx_ok)); ([xb5], (UBX, ubx_ok)); ([], (NMEA, gga))].

(** C3 as stated fails.  The byte 0xB5 put between two UBX frames matches no
    sync pattern, the three frames are complete and their decoders accept
    them, and yet the second UBX frame is never enqueued: 0xB5 is taken with
    the first byte of the frame behind it for a header, the two match none,
    and both are skipped.  The noise-free stream delivers three frames, the
    stream with the noise byte two. *)
Lemma unmatched_noise_loses_a_frame :
  Forall (fun s => unmatched NMEA_HDR s.1 /\ frame NMEA_HDR s.2.1 s.2.2 /\
                   exists v, decode UBXReader_parse NMEAReader_parse
                               RTCMReader_parse s.2.1 s.2.2 = Ok v) segs2 /\
  noisy segs2 [] = ubx_ok ++ [xb5] ++ ubx_ok ++ gga /\
  (_msgqueue (run_drain st0 (clean segs2.*2)).1).*1 = [ubx_ok; ubx_ok; gga] /\
  (_msgqueue (run_drain st0 (noisy segs2 [])).1).*1 = [ubx_ok; gga] /\
  (run_drain st0 (noisy segs2 [])).1 <> (run_drain st0 (clean segs2.*2)).1.
Proof.
  assert (Hnil : unmatched NMEA_HDR []) by (by intros [|i] b1 b2).
  assert (Hone : unmatched NMEA_HDR [xb5]) by (by intros [|[|i]] b1 b2).
  split_and!.
  - repeat constructor; cbn;
      first [exact Hnil|exact Hone|apply frame_ubx_ok|apply frame_gga
            |by eexists; vm_compute].
  - by vm_compute.
  - by vm_compute.
  - by vm_compute.
  - intros Heq. apply (f_equal _msgqueue) in Heq. vm_compute in Heq.
    discriminate.
Qed.


(** C2 as stated fails.  The UBX frame of the scenario takes ten bytes of the
    buffer, not nine. *)
Lemma scenario_not_nine_bytes :
  ~ (exists st' raw rem,
        run_parse st0 (ubx_ok ++ gga) = (st', Ok (Some raw, rem)) /\
        length (ubx_ok ++ gga) - length rem = 9).
Proof.
  intros (st' & raw & rem & Hpb & Hlen).
  vm_compute in Hpb. injection Hpb as <- <- <-.
  vm_compute in Hlen. discriminate.
Qed.

End Scenario.

(** * Concrete runs of the further properties *)
Module Runs.

Import Scenario.

(** A decoder that raises [EOFError] for whatever it is given. *)
Definition eof_parse (raw : bytes) : result bytes := Raise EOFError.

Lemma frame_rtcm : frame NMEA_HDR RTCM3 rtcm.
Proof. split; [apply recognised_rtcm|]. by exists x00, x02. Qed.

Lemma parse_rtcm_behaviour_witness :
  [xd3; x00] !! 1 = Some x00 /\
  parse_rtcm RTCMReader_parse rtcm 0 [xd3; x00] = Ok (rtcm, rtcm).
Proof.
  split; [reflexivity|].
  destruct (parse_rtcm_behaviour RTCMReader_parse rtcm 0 [xd3; x00] x00 eq_refl)
    as [_ Hbyte].
  destruct (Hbyte x02 eq_refl) as (_ & _ & Hfull).
  etrans; [apply Hfull; vm_compute; lia|reflexivity].
Defined.

Lemma extracted_frame_size_witness :
  run_parse st0 buf1 = (st1, Ok (Some ubx_ok, gga)) /\
  4 <= length ubx_ok <= length buf1.
Proof.
  split; [apply run_parse_buf1|].
  destruct (extracted_frame_size NMEA_HDR UBXReader_parse NMEAReader_parse
              RTCMReader_parse st0 buf1 st1 ubx_ok gga run_parse_buf1)
    as (Hsize & _).
  exact Hsize.
Defined.

Definition st2 : app bytes := put st1 (gga, gga).

(** Noise, two frames and the beginning of a third. *)
Definition buf3 : bytes := buf1 ++ removelast ubx_ok.

Lemma run_drain_buf3 : run_drain st0 buf3 = (st2, Ok (removelast ubx_ok)).
Proof. by vm_compute. Qed.

Lemma drain_accounting_witness :
  run_drain st0 buf3 = (st2, Ok (removelast ubx_ok)) /\
  exists new,
    _msgqueue st2 = _msgqueue st0 ++ new /\
    4 * length new <= length buf3 /\
    removelast ubx_ok `suffix_of` buf3.
Proof.
  split; [apply run_drain_buf3|].
  destruct (drain_accounting NMEA_HDR UBXReader_parse NMEAReader_parse
              RTCMReader_parse st0 buf3 st2 (removelast ubx_ok) run_drain_buf3)
    as (new & Hq & Hcount & _ & Hsuf).
  exists new. split_and!; [exact Hq|exact Hcount|exact Hsuf].
Defined.

Lemma drain_idempotent_witness :
  run_drain st0 buf3 = (st2, Ok (removelast ubx_ok)) /\
  run_drain st2 (removelast ubx_ok) = (st2, Ok (removelast ubx_ok)).
Proof.
  split; [apply run_drain_buf3|].
  destruct (drain_idempotent NMEA_HDR UBXReader_parse NMEAReader_parse
              RTCMReader_parse st0 buf3 st2 (removelast ubx_ok) run_drain_buf3)
    as [_ Hagain].
  exact Hagain.
Defined.

Lemma decoder_eoferror_blocks_the_stream_witness :
  eof_parse rtcm = Raise EOFError /\
  drain NMEA_HDR UBXReader_parse NMEAReader_parse eof_parse st0
    ([x00] ++ rtcm ++ gga)
  = (st0, Ok ([x00] ++ rtcm ++ gga)).
Proof.
  split; [reflexivity|].
  destruct (decoder_eoferror_blocks_the_stream NMEA_HDR UBXReader_parse
              NMEAReader_parse eof_parse st0 [x00] RTCM3 rtcm) with (rest := gga)
    as (_ & Hdr & _).
  - repeat constructor. apply nonsync_x00.
  - apply frame_rtcm.
  - reflexivity.
  - exact Hdr.
Defined.

Definition buf4 : bytes := x24 :: ubx_ok ++ gga.

Lemma run_parse_buf4 : run_parse st0 buf4 = (put st0 (gga, gga), Ok (Some gga, [])).
Proof. by vm_compute. Qed.

Lemma unmatched_sync_byte_skips_two_witness :
  classify NMEA_HDR x24 xb5 = None /\
  exists start, 2 <= start /\ buf4 = take start buf4 ++ gga ++ [].
Proof.
  split; [reflexivity|].
  apply (unmatched_sync_byte_skips_two NMEA_HDR UBXReader_parse
           NMEAReader_parse RTCMReader_parse st0 buf4 x24 xb5
           (put st0 (gga, gga)) gga []).
  - reflexivity.
  - reflexivity.
  - apply sync_x24.
  - reflexivity.
  - apply run_parse_buf4.
Defined.

Lemma noise_is_retained_witness :
  run_thread (Ok <$> [[x00]; [x01; x00]]) st0
  = (st0, Blocked (concat [[x00]; [x01; x00]])).
Proof.
  apply (noise_is_retained NMEA_HDR UBXReader_parse NMEAReader_parse
           RTCMReader_parse st0 [[x00]; [x01; x00]]).
  - by repeat constructor.
  - repeat constructor; first [apply nonsync_x00|apply nonsync_x01].
Defined.

Lemma transport_error_after_data_witness :
  _msgqueue
    (run_thread ((Ok <$> [buf1; take 3 ubx_ok]) ++ Raise TimeoutError :: [Ok gga])
       st0).1
  = _msgqueue (run_drain st0 (concat [buf1; take 3 ubx_ok])).1.
Proof.
  destruct (transport_error_after_data NMEA_HDR UBXReader_parse
              NMEAReader_parse RTCMReader_parse st0 [buf1; take 3 ubx_ok]
              TimeoutError [Ok gga]) as [_ Hq].
  - by repeat constructor.
  - exact Hq.
Defined.

Lemma peer_close_ends_silently_witness :
  run_thread ((Ok <$> [buf1; take 3 ubx_ok]) ++ Ok [] :: [Ok gga]) st0
  = (st2, Closed (take 3 ubx_ok)).
Proof.
  etrans.
  - apply (peer_close_ends_silently NMEA_HDR UBXReader_parse NMEAReader_parse
             RTCMReader_parse st0 [buf1; take 3 ubx_ok] [Ok gga]).
    by repeat constructor.
  - by vm_compute.
Defined.

(** A handler over sockets and threads without content, whose [close()] and
    [start()] return. *)
Definition h0 : @handler bytes unit unit := __init__ 0%Z.

Definition close_ok (s : unit) : result unit := Ok tt.

Definition start_ok (t : unit) : result unit := Ok tt.

Lemma connect_then_disconnect_witness :
  let h' :=
    disconnect close_ok 0%Z
      (connect tt start_ok 4%Z 0%Z "{}"%string "gnss.example"%string 2101%Z
         "TCP"%string h0) in
  _connected h' = false /\ conn_status h' = 0%Z /\ io h' = io h0 /\
  _reading h' = false /\ _socket_thread h' = None.
Proof.
  destruct (connect_then_disconnect close_ok tt start_ok 4%Z 0%Z "{}"%string
              "gnss.example"%string 2101%Z "TCP"%string h0)
    as (Hco & Hcs & Hio & Hre & Hth); [discriminate|discriminate|].
  cbv zeta. split_and!; [exact Hco|exact Hcs|exact Hio|exact Hre|exact Hth].
Defined.

(** A reading handler with its socket and two frames queued. *)
Definition h1 : @handler bytes unit unit :=
  Handler (Some tt) (Some tt) (Some "gnss.example"%string) (Some 2101%Z)
    (Some "TCP"%string) true true st2 4%Z [].

Lemma on_read_consumes_in_order_witness :
  exists h',
    on_reads 2 h1 = Some h' /\
    _msgqueue (io h') = [] /\
    calls h'
    = [process_data ubx_ok [x01; x02; x02; x00; xaa; xbb]; process_data gga gga] /\
    on_read h' = None.
Proof.
  apply (on_read_consumes_in_order h1 tt); reflexivity.
Defined.

Lemma on_read_after_disconnect_witness :
  on_reads 2 (disconnect close_ok 0%Z h1) = Some (disconnect close_ok 0%Z h1) /\
  _msgqueue (io (disconnect close_ok 0%Z h1)) = _msgqueue (io h1).
Proof.
  apply (on_read_after_disconnect close_ok 0%Z h1 2); [reflexivity|by eexists].
Defined.

Lemma del_is_disconnect_witness :
  __del__ close_ok 0%Z h1 = disconnect close_ok 0%Z h1.
Proof.
  apply (del_is_disconnect close_ok 0%Z h1); [reflexivity|by eexists].
Defined.

(** The reading handler with an empty queue. *)
Definition h2 : @handler bytes unit unit := with_io st0 h1.

Lemma frames_reach_process_data_in_order_witness :
  exists new residual h',
    on_reads (length new) (with_io (run_drain (io h2) buf3).1 h2) = Some h' /\
    calls h' = calls h2 ++ ((fun item => process_data item.1 item.2) <$> new) /\
    in_order new.*1 buf3 residual /\
    residual = removelast ubx_ok /\
    _msgqueue (io h') = [].
Proof.
  destruct (frames_reach_process_data_in_order NMEA_HDR UBXReader_parse
              NMEAReader_parse RTCMReader_parse h2 tt buf3)
    as (new & residual & h' & _ & Hrun & Hcalls & Hord & Hres & Hq & _);
    [reflexivity..|].
  exists new, residual, h'.
  split_and!; [exact Hrun|exact Hcalls|exact Hord| |exact Hq].
  apply Hres. exact (f_equal snd run_drain_buf3).
Defined.

End Runs.
